(** * Cost-basis engine and secure storage of CRYPTA: a shallow embedding

    Source files: [src/lib/cost-basis.ts] (lot tracking, FIFO/LIFO/HIFO
    consumption, realized and unrealized gains, year filtering) and the
    storage module [storage.ts] (reads of encrypted keys, backup import).

    Modelling conventions.
    - A JS [number] holding an amount or a EUR value is modelled as an exact
      rational [Q]; timestamps (milliseconds since the epoch) as [Z].
      Rounding of IEEE doubles, NaN and infinities are outside the model.
    - [Date.now()] and [Math.random()], which the source calls once per lot
      to build the lot id, are an oracle [env : nat -> string * string]
      indexed by the number of lots created so far.
    - [Array.prototype.sort] (stable since ES2019) with a numeric comparator
      is the stable insertion sort [js_sort].
    - A [Record<string, T>] is an association list in insertion order. *)

From Stdlib Require Import String Ascii ZArith QArith Qabs Lqa Lia.
From Stdlib Require Import List.
From Stdlib Require Import Sorting.Sorted Sorting.Permutation Bool.
Import ListNotations.

Open Scope Q_scope.

(** ** JS helpers *)

(** [a < b] and [a <= b] on numbers. *)
Definition qlt (a b : Q) : bool := negb (Qle_bool b a).
Definition qle (a b : Q) : bool := Qle_bool a b.

(** [Math.min(a, b)] and [Math.max(a, b)]. *)
Definition js_min (a b : Q) : Q := if qle a b then a else b.
Definition js_max (a b : Q) : Q := if qle a b then b else a.

(** [Array.prototype.sort(cmp)]: stable; an element is placed before a later
    one exactly when the comparator does not return a positive number. *)
Fixpoint js_insert {A} (cmp : A -> A -> Q) (x : A) (l : list A) : list A :=
  match l with
  | [] => [x]
  | y :: ys => if qle (cmp x y) 0 then x :: y :: ys else y :: js_insert cmp x ys
  end.

Fixpoint js_sort {A} (cmp : A -> A -> Q) (l : list A) : list A :=
  match l with
  | [] => []
  | x :: xs => js_insert cmp x (js_sort cmp xs)
  end.

(** [String.prototype.toUpperCase] on ASCII text. *)
Definition ascii_upper (c : ascii) : ascii :=
  let n := nat_of_ascii c in
  if andb (Nat.leb 97 n) (Nat.leb n 122) then ascii_of_nat (n - 32) else c.

Fixpoint toUpperCase (s : string) : string :=
  match s with
  | EmptyString => EmptyString
  | String c r => String (ascii_upper c) (toUpperCase r)
  end.

(** First index whose element satisfies [p] ([Array.prototype.findIndex]). *)
Fixpoint find_index {A} (p : A -> bool) (l : list A) : option nat :=
  match l with
  | [] => None
  | x :: xs => if p x then Some O else option_map S (find_index p xs)
  end.

(** Replace the element at index [i] by [f] of it (in-place field update). *)
Fixpoint update_at {A} (i : nat) (f : A -> A) (l : list A) : list A :=
  match l, i with
  | [], _ => []
  | x :: xs, O => f x :: xs
  | x :: xs, S j => x :: update_at j f xs
  end.

(** [Array.prototype.reduce((s, x) => s + g x, 0)]. *)
Definition reduce_sum {A} (g : A -> Q) (l : list A) : Q :=
  fold_left (fun s x => s + g x) l 0.

(** ** Data model *)

Inductive TxType := buy | sell | transfer | stake | airdrop.

(** A [Transaction] (fields the engine reads). *)
Record Transaction := mkTx {
  tx_hash : string;
  tx_type : TxType;
  tx_asset : string;
  tx_amount : Q;
  tx_valueEur : Q;
  tx_timestamp : Z
}.

Inductive CostBasisMethod := FIFO | LIFO | HIFO.

Record CostBasisLot := mkLot {
  lot_id : string;
  lot_asset : string;
  lot_amount : Q;
  remainingAmount : Q;
  costPerUnit : Q;
  totalCost : Q;
  lot_timestamp : Z;
  lot_txHash : string
}.

Record LotUsed := mkUsed {
  lotId : string;
  amountUsed : Q;
  used_costPerUnit : Q;
  used_cost : Q
}.

Record SaleResult := mkSale {
  sale_transaction : Transaction;
  proceeds : Q;
  costBasis : Q;
  gainLoss : Q;
  lotsUsed : list LotUsed
}.

Record Unrealized := mkUnreal {
  u_amount : Q;
  u_costBasis : Q;
  u_avgCost : Q
}.

Record CostBasisResult := mkResult {
  cb_lots : list CostBasisLot;
  cb_sales : list SaleResult;
  cb_totalGains : Q;
  cb_totalLosses : Q;
  cb_netGain : Q;
  cb_unrealizedGains : list (string * Unrealized)
}.

(** [Record<string, V>]: lookup, and assignment ([obj[k] = v]) which keeps
    the position of an existing key and appends a new one. *)
Fixpoint rec_get {V} (k : string) (r : list (string * V)) : option V :=
  match r with
  | [] => None
  | (k', v) :: r' => if String.eqb k k' then Some v else rec_get k r'
  end.

Fixpoint rec_set {V} (k : string) (v : V) (r : list (string * V)) : list (string * V) :=
  match r with
  | [] => [(k, v)]
  | (k', v') :: r' => if String.eqb k k' then (k', v) :: r' else (k', v') :: rec_set k v r'
  end.

(** ** calculateCostBasis *)

(** Timestamp normalisation: values below [1e12] are seconds. *)
Definition normalizeTx (tx : Transaction) : Transaction :=
  {| tx_hash := tx_hash tx; tx_type := tx_type tx; tx_asset := tx_asset tx;
     tx_amount := tx_amount tx; tx_valueEur := tx_valueEur tx;
     tx_timestamp := if (tx_timestamp tx <? 1000000000000)%Z
                     then (tx_timestamp tx * 1000)%Z else tx_timestamp tx |}.

(** [sortedTx]: normalised transactions, oldest first. *)
Definition processingOrder (transactions : list Transaction) : list Transaction :=
  js_sort (fun a b => inject_Z (tx_timestamp a - tx_timestamp b)) (map normalizeTx transactions).

(** The comparator [getLotsForMethod] passes to [sort]. *)
Definition methodCmp (m : CostBasisMethod) (a b : CostBasisLot) : Q :=
  match m with
  | LIFO => inject_Z (lot_timestamp b - lot_timestamp a)
  | HIFO => costPerUnit b - costPerUnit a
  | FIFO => inject_Z (lot_timestamp a - lot_timestamp b)
  end.

(** [getLotsForMethod]: the available lots, sorted. The result holds
    references to the lots of the store, modelled as their indices. *)
Definition getLotsForMethod (lots : list CostBasisLot) (m : CostBasisMethod) : list nat :=
  let available := filter (fun p => qlt 0 (remainingAmount (snd p)))
                          (combine (seq 0 (List.length lots)) lots) in
  map fst (js_sort (fun a b => methodCmp m (snd a) (snd b)) available).

Definition decRemaining (amt : Q) (l : CostBasisLot) : CostBasisLot :=
  {| lot_id := lot_id l; lot_asset := lot_asset l; lot_amount := lot_amount l;
     remainingAmount := remainingAmount l - amt; costPerUnit := costPerUnit l;
     totalCost := totalCost l; lot_timestamp := lot_timestamp l;
     lot_txHash := lot_txHash l |}.

(** Loop state of a sale: the asset's lot array, [remainingToSell],
    [totalCostBasis] and [lotsUsed]. *)
Record SellLoop := mkLoop {
  lp_lots : list CostBasisLot;
  lp_remainingToSell : Q;
  lp_totalCostBasis : Q;
  lp_lotsUsed : list LotUsed
}.

(** [for (const lot of orderedLots) { ... }]: [lot] is read through its
    reference; the decrement goes to [lots.find(l => l.id === lot.id)]. *)
Fixpoint consumeLots (orderedLots : list nat) (s : SellLoop) : SellLoop :=
  match orderedLots with
  | [] => s
  | i :: rest =>
      if qle (lp_remainingToSell s) 0 then s
      else match nth_error (lp_lots s) i with
           | None => consumeLots rest s
           | Some lot =>
               if qle (remainingAmount lot) 0 then consumeLots rest s
               else
                 let amountFromThisLot := js_min (remainingAmount lot) (lp_remainingToSell s) in
                 let costFromThisLot := amountFromThisLot * costPerUnit lot in
                 let lots' :=
                   match find_index (fun l => String.eqb (lot_id l) (lot_id lot)) (lp_lots s) with
                   | Some j => update_at j (decRemaining amountFromThisLot) (lp_lots s)
                   | None => lp_lots s
                   end in
                 consumeLots rest
                   {| lp_lots := lots';
                      lp_remainingToSell := lp_remainingToSell s - amountFromThisLot;
                      lp_totalCostBasis := lp_totalCostBasis s + costFromThisLot;
                      lp_lotsUsed := lp_lotsUsed s ++
                        [mkUsed (lot_id lot) amountFromThisLot (costPerUnit lot) costFromThisLot] |}
           end
  end.

(** The [sell] branch on the asset's lot array: new array and sale record. *)
Definition sellFromLots (m : CostBasisMethod) (lots : list CostBasisLot) (tx : Transaction)
  : list CostBasisLot * SaleResult :=
  let orderedLots := getLotsForMethod lots m in
  let r := consumeLots orderedLots (mkLoop lots (tx_amount tx) 0 []) in
  let proceeds := tx_valueEur tx in
  let gainLoss := proceeds - lp_totalCostBasis r in
  (lp_lots r, mkSale tx proceeds (lp_totalCostBasis r) gainLoss (lp_lotsUsed r)).

(** Mutable state of the main loop. [st_created] counts lots created, i.e.
    calls of [Date.now()] / [Math.random()] so far. *)
Record CBState := mkState {
  st_lotsByAsset : list (string * list CostBasisLot);
  st_sales : list SaleResult;
  st_totalGains : Q;
  st_totalLosses : Q;
  st_created : nat
}.

Definition initState : CBState := mkState [] [] 0 0 O.

Section Engine.

(** [env k] = ([String(Date.now())], [Math.random().toString(36).substr(2, 5)])
    at the creation of the [k]-th lot. *)
Variable env : nat -> string * string.
Variable method : CostBasisMethod.

Definition lotIdFor (k : nat) (hash : string) : string :=
  let '(now, rnd) := env k in
  String.append hash (String.append "-" (String.append now (String.append "-" rnd))).

Definition processTx (st : CBState) (tx : Transaction) : CBState :=
  let asset := toUpperCase (tx_asset tx) in
  let lots := match rec_get asset (st_lotsByAsset st) with Some l => l | None => [] end in
  match tx_type tx with
  | buy | airdrop | transfer =>
      (* [tx.valueEur || 0]: the identity on the numbers of the model *)
      let effectiveValueEur := tx_valueEur tx in
      let cpu := if qlt 0 (tx_amount tx) then effectiveValueEur / tx_amount tx else 0 in
      let lot := {| lot_id := lotIdFor (st_created st) (tx_hash tx); lot_asset := asset;
                    lot_amount := tx_amount tx; remainingAmount := tx_amount tx;
                    costPerUnit := cpu; totalCost := effectiveValueEur;
                    lot_timestamp := tx_timestamp tx; lot_txHash := tx_hash tx |} in
      {| st_lotsByAsset := rec_set asset (lots ++ [lot]) (st_lotsByAsset st);
         st_sales := st_sales st; st_totalGains := st_totalGains st;
         st_totalLosses := st_totalLosses st; st_created := S (st_created st) |}
  | sell =>
      let '(lots', sale) := sellFromLots method lots tx in
      (* [lotsByAsset[asset] || []]: a missing asset gets a fresh, unstored array *)
      let store := match rec_get asset (st_lotsByAsset st) with
                   | Some _ => rec_set asset lots' (st_lotsByAsset st)
                   | None => st_lotsByAsset st
                   end in
      let g := gainLoss sale in
      {| st_lotsByAsset := store;
         st_sales := st_sales st ++ [sale];
         st_totalGains := if qlt 0 g then st_totalGains st + g else st_totalGains st;
         st_totalLosses := if qlt 0 g then st_totalLosses st else st_totalLosses st + Qabs g;
         st_created := st_created st |}
  | stake => st
  end.

Definition unrealizedOf (entry : string * list CostBasisLot) : list (string * Unrealized) :=
  let '(asset, lots) := entry in
  let remainingLots := filter (fun l => qlt 0 (remainingAmount l)) lots in
  let totalAmount := reduce_sum remainingAmount remainingLots in
  let totalCostBasis := reduce_sum (fun l => remainingAmount l * costPerUnit l) remainingLots in
  if qlt 0 totalAmount
  then [(asset, mkUnreal totalAmount totalCostBasis (totalCostBasis / totalAmount))]
  else [].

Definition finish (st : CBState) : CostBasisResult :=
  {| cb_lots := concat (map snd (st_lotsByAsset st));
     cb_sales := st_sales st;
     cb_totalGains := st_totalGains st;
     cb_totalLosses := st_totalLosses st;
     cb_netGain := st_totalGains st - st_totalLosses st;
     cb_unrealizedGains := flat_map unrealizedOf (st_lotsByAsset st) |}.

Definition calculateCostBasis (transactions : list Transaction) : CostBasisResult :=
  finish (fold_left processTx (processingOrder transactions) initState).

End Engine.

(** ** filterTaxResultsByYear *)

Record TaxYearResult := mkTaxYear {
  ty_totalGains : Q;
  ty_totalLosses : Q;
  ty_netGain : Q;
  taxableEvents : list SaleResult
}.

Definition withSales (r : CostBasisResult) (sales : list SaleResult) : CostBasisResult :=
  {| cb_lots := cb_lots r; cb_sales := sales; cb_totalGains := cb_totalGains r;
     cb_totalLosses := cb_totalLosses r; cb_netGain := cb_netGain r;
     cb_unrealizedGains := cb_unrealizedGains r |}.

Section YearFilter.

(** [new Date(ms).getFullYear()] in the local time zone of the browser. *)
Variable getFullYear : Z -> Z.

Definition filterSales (sales : list SaleResult) (year : Z) : TaxYearResult :=
  let taxableEvents := filter (fun sale =>
        Z.eqb (getFullYear (tx_timestamp (sale_transaction sale))) year) sales in
  let totalGains := reduce_sum (fun s => js_max 0 (gainLoss s)) taxableEvents in
  let totalLosses := reduce_sum (fun s => Qabs (js_min 0 (gainLoss s))) taxableEvents in
  {| ty_totalGains := totalGains; ty_totalLosses := totalLosses;
     ty_netGain := totalGains - totalLosses; taxableEvents := taxableEvents |}.

Definition filterTaxResultsByYear (result : CostBasisResult) (year : Z) : TaxYearResult :=
  filterSales (cb_sales result) year.

End YearFilter.

(** ** calculateUnrealizedGains *)

Record AssetUnrealized := mkAssetUnrealized {
  ua_amount : Q;
  ua_costBasis : Q;
  currentValue : Q;
  unrealizedGainLoss : Q
}.

Record UnrealizedResult := mkUnrealizedResult {
  totalUnrealizedGain : Q;
  totalUnrealizedLoss : Q;
  byAsset : list (string * AssetUnrealized)
}.

(** [x || d] for a property read of a [Record<string, number>]: [undefined]
    and [0] are falsy. *)
Definition orNumber (x : option Q) (d : Q) : Q :=
  match x with
  | Some q => if Qeq_bool q 0 then d else q
  | None => d
  end.

Definition priceFor (currentPrices : list (string * Q)) (asset : string) : Q :=
  orNumber (rec_get asset currentPrices)
           (orNumber (rec_get (toUpperCase asset) currentPrices) 0).

(** The body of the loop for one entry [asset -> data]. *)
Definition assetUnrealized (currentPrices : list (string * Q)) (asset : string)
  (data : Unrealized) : AssetUnrealized :=
  let currentPrice := priceFor currentPrices asset in
  let currentValue := u_amount data * currentPrice in
  let unrealizedGainLoss := currentValue - u_costBasis data in
  let unrealizedGainLoss :=
    if orb (Qeq_bool (u_costBasis data) 0) (qlt (u_costBasis data) (1 # 100)) then 0
    else if qlt currentValue unrealizedGainLoss then currentValue * (1 # 2)
    else unrealizedGainLoss in
  mkAssetUnrealized (u_amount data) (u_costBasis data) currentValue unrealizedGainLoss.

Definition unrealizedStep (currentPrices : list (string * Q)) (acc : UnrealizedResult)
  (entry : string * Unrealized) : UnrealizedResult :=
  let '(asset, data) := entry in
  let e := assetUnrealized currentPrices asset data in
  let g := unrealizedGainLoss e in
  {| totalUnrealizedGain := if qlt 0 g then totalUnrealizedGain acc + g else totalUnrealizedGain acc;
     totalUnrealizedLoss := if qlt 0 g then totalUnrealizedLoss acc else totalUnrealizedLoss acc + Qabs g;
     byAsset := rec_set asset e (byAsset acc) |}.

Definition calculateUnrealizedGains (unrealizedGains : list (string * Unrealized))
  (currentPrices : list (string * Q)) : UnrealizedResult :=
  fold_left (unrealizedStep currentPrices) unrealizedGains (mkUnrealizedResult 0 0 []).

(** ** Secure storage: [getSecureData], [setSecureData], [importBackupData] *)

Module Storage.

Definition WALLETS := "crypta_wallets"%string.
Definition TRANSACTIONS := "crypta_transactions"%string.
Definition SNAPSHOTS := "crypta_snapshots"%string.
Definition SETTINGS := "crypta_settings"%string.
Definition ONBOARDING_COMPLETE := "crypta_onboarding"%string.
Definition HIDDEN_ASSETS := "crypta_hidden_assets"%string.
Definition SPAM_ASSETS := "crypta_spam_assets"%string.
Definition PROVIDER_CONFIGS := "crypta_provider_configs"%string.

Definition ENCRYPTED_KEYS : list string := [WALLETS; TRANSACTIONS; SNAPSHOTS; PROVIDER_CONFIGS].

Definition isEncryptedKey (key : string) : bool := existsb (String.eqb key) ENCRYPTED_KEYS.

Inductive StorageError :=
  | VaultLockedError
  | PlainError (message : string).

Inductive Result (A : Type) :=
  | Ok (a : A)
  | Err (e : StorageError).
Arguments Ok {A} a.
Arguments Err {A} e.

Section Store.

(** JS values held in the decrypted cache, the unlocked vault, and the JSON
    and settings-schema functions the module calls. *)
Variable Val : Type.
Variable UnlockedVault : Type.
Variable JSON_parse : string -> option Val.   (* [None]: it throws *)
Variable JSON_stringify : Val -> string.
Variable emptyArray : Val.                    (* [[]] *)
Variable DEFAULT_SETTINGS : Val.
Variable settingsSafeParse : Val -> option Val.
Variable versionedSettings : Val -> Val.      (* [{ schemaVersion, data }] *)

(** Module state: [localStorage], [_secureCache], [_vault], and the
    encryptions started by [setSecureData] that have not yet completed. *)
Record Store := mkStore {
  localStorage : list (string * string);
  secureCache : list (string * Val);
  vault : option UnlockedVault;
  pendingWrites : list (string * Val)
}.

(** State and exception monad: a thrown error keeps the writes done so far. *)
Definition M (A : Type) := Store -> Result A * Store.

Definition ret {A} (a : A) : M A := fun s => (Ok a, s).
Definition throw {A} (e : StorageError) : M A := fun s => (Err e, s).
Definition bind {A B} (m : M A) (k : A -> M B) : M B :=
  fun s => match m s with
           | (Ok a, s') => k a s'
           | (Err e, s') => (Err e, s')
           end.

Notation "x <- m ;; k" := (bind m (fun x => k)) (at level 61, m at next level, right associativity).

Definition getItem (key : string) (s : Store) : option string := rec_get key (localStorage s).

Definition setItem (key value : string) : M unit :=
  fun s => (Ok tt, {| localStorage := rec_set key value (localStorage s);
                      secureCache := secureCache s; vault := vault s;
                      pendingWrites := pendingWrites s |}).

(** [if (!raw)]: [null] or the empty string. *)
Definition falsyRaw (raw : option string) : bool :=
  match raw with
  | None => true
  | Some r => String.eqb r ""
  end.

(** [getSecureData(key, defaultValue)]: a read does not change the store. *)
Definition getSecureData (key : string) (defaultValue : Val) (s : Store) : Result Val :=
  let raw := getItem key s in
  if falsyRaw raw then Ok defaultValue
  else if isEncryptedKey key then
    match vault s with
    | None => Err VaultLockedError
    | Some _ =>
        match rec_get key (secureCache s) with
        | Some v => Ok v
        | None => Ok defaultValue
        end
    end
  else match raw with
       | Some r => match JSON_parse r with
                   | Some v => Ok v
                   | None => Ok defaultValue  (* logged, then the default *)
                   end
       | None => Ok defaultValue
       end.

(** [setSecureData(key, data)]: the cache is written at once, the
    encryption and the [localStorage] write are started asynchronously. *)
Definition setSecureData (key : string) (data : Val) : M unit :=
  fun s =>
    if isEncryptedKey key then
      match vault s with
      | None => (Err VaultLockedError, s)
      | Some _ => (Ok tt, {| localStorage := localStorage s;
                             secureCache := rec_set key data (secureCache s);
                             vault := vault s;
                             pendingWrites := pendingWrites s ++ [(key, data)] |})
      end
    else setItem key (JSON_stringify data) s.

Definition saveSettings (settings : Val) : M unit :=
  let finalSettings := match settingsSafeParse settings with
                       | Some v => v
                       | None => DEFAULT_SETTINGS
                       end in
  setItem SETTINGS (JSON_stringify (versionedSettings finalSettings)).

(** A [BackupDataV1] as received: [bk_v] is [Some q] when [v] is a number;
    the other fields are [None] when [null] or [undefined]. *)
Record BackupDataV1 := mkBackup {
  bk_v : option Q;
  bk_wallets : option Val;
  bk_transactions : option Val;
  bk_snapshots : option Val;
  bk_providerConfigs : option Val;
  bk_settings : option Val;
  bk_onboardingComplete : bool;
  bk_hiddenAssets : option Val;
  bk_spamAssets : option Val
}.

(** [backup.v !== 1] *)
Definition versionIsOne (b : BackupDataV1) : bool :=
  match bk_v b with
  | Some q => Qeq_bool q 1
  | None => false
  end.

Definition nullish (x : option Val) (d : Val) : Val :=
  match x with Some v => v | None => d end.

(** [importBackupData(backup)]; [None] is a [null] or [undefined] backup. *)
Definition importBackupData (backup : option BackupDataV1) : M unit :=
  match backup with
  | None => throw (PlainError "Backup non supportato")
  | Some b =>
      if negb (versionIsOne b) then throw (PlainError "Backup non supportato")
      else
        _ <- setSecureData WALLETS (nullish (bk_wallets b) emptyArray) ;;
        _ <- setSecureData TRANSACTIONS (nullish (bk_transactions b) emptyArray) ;;
        _ <- setSecureData SNAPSHOTS (nullish (bk_snapshots b) emptyArray) ;;
        _ <- setSecureData PROVIDER_CONFIGS (nullish (bk_providerConfigs b) emptyArray) ;;
        _ <- saveSettings (nullish (bk_settings b) DEFAULT_SETTINGS) ;;
        _ <- setItem ONBOARDING_COMPLETE (if bk_onboardingComplete b then "true" else "false") ;;
        _ <- setItem HIDDEN_ASSETS (JSON_stringify (nullish (bk_hiddenAssets b) emptyArray)) ;;
        setItem SPAM_ASSETS (JSON_stringify (nullish (bk_spamAssets b) emptyArray))
  end.

(** [localStorage.removeItem(key)]. *)
Definition removeItem (key : string) : M unit :=
  fun s => (Ok tt, {| localStorage := filter (fun e => negb (String.eqb (fst e) key)) (localStorage s);
                      secureCache := secureCache s; vault := vault s;
                      pendingWrites := pendingWrites s |}).

(** [Object.values(STORAGE_KEYS)], in declaration order. *)
Definition STORAGE_KEY_VALUES : list string :=
  [WALLETS; TRANSACTIONS; SNAPSHOTS; SETTINGS; ONBOARDING_COMPLETE; HIDDEN_ASSETS;
   SPAM_ASSETS; PROVIDER_CONFIGS].

(** [xs.forEach(f)] for an action [f]. *)
Fixpoint forEach (f : string -> M unit) (xs : list string) : M unit :=
  match xs with
  | [] => ret tt
  | x :: xs' => _ <- f x ;; forEach f xs'
  end.

(** [clearAllData()]. *)
Definition clearAllData : M unit :=
  _ <- forEach removeItem STORAGE_KEY_VALUES ;;
  _ <- removeItem "crypta_encryption_enabled" ;;
  removeItem "crypta_passphrase_hash".

(** [isOnboardingComplete()]: [localStorage.getItem(...) === 'true']. *)
Definition isOnboardingComplete (s : Store) : bool :=
  match getItem ONBOARDING_COMPLETE s with
  | Some r => String.eqb r "true"
  | None => false
  end.

(** [completeOnboarding()]. *)
Definition completeOnboarding : M unit := setItem ONBOARDING_COMPLETE "true".

End Store.

(** [Array.prototype.splice(index, 1)] on the array: the element at
    [index] is removed. *)
Fixpoint removeAt {A} (i : nat) (l : list A) : list A :=
  match l, i with
  | [], _ => []
  | _ :: xs, O => xs
  | x :: xs, S i' => x :: removeAt i' xs
  end.

Section AssetLists.

Variable Val : Type.
Variable UnlockedVault : Type.
(** [JSON.parse] and [JSON.stringify] on the string arrays kept under
    [crypta_hidden_assets] and [crypta_spam_assets]; [None]: it throws. *)
Variable parseStrings : string -> option (list string).
Variable stringifyStrings : list string -> string.

Notation "x <- m ;; k" := (bind Val UnlockedVault m (fun x => k))
  (at level 61, m at next level, right associativity).

(** [getHiddenAssets()] ([key = HIDDEN_ASSETS]) and [getSpamAssets()]
    ([key = SPAM_ASSETS]): [data ? JSON.parse(data) : []], [[]] when the
    parse throws. *)
Definition getAssetList (key : string) (s : Store Val UnlockedVault) : list string :=
  match getItem Val UnlockedVault key s with
  | Some data =>
      if String.eqb data "" then []
      else match parseStrings data with
           | Some l => l
           | None => []
           end
  | None => []
  end.

(** [toggleHiddenAsset(symbol)] and [toggleSpamAsset(symbol)] at their key. *)
Definition toggleAsset (key symbol : string) : M Val UnlockedVault bool :=
  fun s =>
    let hidden := getAssetList key s in
    let normalized := toUpperCase symbol in
    match find_index (fun x => String.eqb x normalized) hidden with
    | None =>
        (_ <- setItem Val UnlockedVault key (stringifyStrings (hidden ++ [normalized])) ;;
         ret Val UnlockedVault true) s
    | Some index =>
        (_ <- setItem Val UnlockedVault key (stringifyStrings (removeAt index hidden)) ;;
         ret Val UnlockedVault false) s
    end.

(** [isAssetHidden(symbol)] and [isAssetSpam(symbol)] at their key. *)
Definition isAssetListed (key symbol : string) (s : Store Val UnlockedVault) : bool :=
  existsb (fun x => String.eqb x (toUpperCase symbol)) (getAssetList key s).

Definition getHiddenAssets := getAssetList HIDDEN_ASSETS.
Definition toggleHiddenAsset := toggleAsset HIDDEN_ASSETS.
Definition isAssetHidden := isAssetListed HIDDEN_ASSETS.
Definition getSpamAssets := getAssetList SPAM_ASSETS.
Definition toggleSpamAsset := toggleAsset SPAM_ASSETS.
Definition isAssetSpam := isAssetListed SPAM_ASSETS.

End AssetLists.

End Storage.

(** ** Specification-level notions *)

Definition sumQ (l : list Q) : Q := fold_right Qplus 0 l.

Definition isAvailable (l : CostBasisLot) : bool := qlt 0 (remainingAmount l).

(** No two strings of the list are equal (the lot ids are meant to be unique). *)
Fixpoint distinctb (l : list string) : bool :=
  match l with
  | [] => true
  | x :: r => negb (existsb (String.eqb x) r) && distinctb r
  end.

(** The lots an index list refers to. *)
Fixpoint lotsAt (lots : list CostBasisLot) (idx : list nat) : list CostBasisLot :=
  match idx with
  | [] => []
  | i :: r => match nth_error lots i with
              | Some l => l :: lotsAt lots r
              | None => lotsAt lots r
              end
  end.

(** Consumption order each method is meant to follow. *)
Definition methodOrder (m : CostBasisMethod) (a b : CostBasisLot) : Prop :=
  match m with
  | FIFO => (lot_timestamp a <= lot_timestamp b)%Z
  | LIFO => (lot_timestamp b <= lot_timestamp a)%Z
  | HIFO => costPerUnit b <= costPerUnit a
  end.

Definition isAcquisition (t : TxType) : bool :=
  match t with buy | airdrop | transfer => true | _ => false end.

Definition isSale (t : TxType) : bool :=
  match t with sell => true | _ => false end.

Definition ofAsset (A : string) (tx : Transaction) : bool := String.eqb (toUpperCase (tx_asset tx)) A.

Definition acquiredAmount (A : string) (txs : list Transaction) : Q :=
  sumQ (map tx_amount (filter (fun tx => ofAsset A tx && isAcquisition (tx_type tx)) txs)).

Definition disposedAmount (A : string) (txs : list Transaction) : Q :=
  sumQ (map tx_amount (filter (fun tx => ofAsset A tx && isSale (tx_type tx)) txs)).

(** No sale of asset [A] exceeds what is held when it is processed: every
    prefix of the processing order has acquired at least what it disposed. *)
Definition noOversell (A : string) (ord : list Transaction) : bool :=
  forallb (fun n => qle (disposedAmount A (firstn n ord)) (acquiredAmount A (firstn n ord)))
          (seq 0 (S (List.length ord))).

(** Results with the generated lot ids blanked out. *)
Definition eraseLot (l : CostBasisLot) : CostBasisLot :=
  {| lot_id := ""; lot_asset := lot_asset l; lot_amount := lot_amount l;
     remainingAmount := remainingAmount l; costPerUnit := costPerUnit l;
     totalCost := totalCost l; lot_timestamp := lot_timestamp l; lot_txHash := lot_txHash l |}.

Definition eraseUsed (u : LotUsed) : LotUsed :=
  mkUsed "" (amountUsed u) (used_costPerUnit u) (used_cost u).

Definition eraseSale (s : SaleResult) : SaleResult :=
  mkSale (sale_transaction s) (proceeds s) (costBasis s) (gainLoss s) (map eraseUsed (lotsUsed s)).

Definition eraseResult (r : CostBasisResult) : CostBasisResult :=
  {| cb_lots := map eraseLot (cb_lots r); cb_sales := map eraseSale (cb_sales r);
     cb_totalGains := cb_totalGains r; cb_totalLosses := cb_totalLosses r;
     cb_netGain := cb_netGain r; cb_unrealizedGains := cb_unrealizedGains r |}.

(** The sale loop with the decrement applied at the visited index itself;
    [consumeLots] computes the same when the lot ids are distinct. *)
Fixpoint consumeRef (orderedLots : list nat) (s : SellLoop) : SellLoop :=
  match orderedLots with
  | [] => s
  | i :: rest =>
      if qle (lp_remainingToSell s) 0 then s
      else match nth_error (lp_lots s) i with
           | None => consumeRef rest s
           | Some lot =>
               if qle (remainingAmount lot) 0 then consumeRef rest s
               else
                 let a := js_min (remainingAmount lot) (lp_remainingToSell s) in
                 consumeRef rest
                   {| lp_lots := update_at i (decRemaining a) (lp_lots s);
                      lp_remainingToSell := lp_remainingToSell s - a;
                      lp_totalCostBasis := lp_totalCostBasis s + a * costPerUnit lot;
                      lp_lotsUsed := lp_lotsUsed s ++
                        [mkUsed (lot_id lot) a (costPerUnit lot) (a * costPerUnit lot)] |}
           end
  end.

(** Fields other than [remainingAmount] are never changed by a sale. *)
Definition keepsFields {B} (g : CostBasisLot -> B) : Prop :=
  forall a l, g (decRemaining a l) = g l.

Definition sumRem (lots : list CostBasisLot) : Q := sumQ (map remainingAmount lots).

Definition sumCost (lots : list CostBasisLot) : Q :=
  sumQ (map (fun l => remainingAmount l * costPerUnit l) lots).

(** Every index of the order is distinct and names an available lot. *)
Definition Ready (o : list nat) (s : SellLoop) : Prop :=
  NoDup o /\ forall i, In i o -> exists l, nth_error (lp_lots s) i = Some l /\ 0 < remainingAmount l.

Definition indexedAvailable (lots : list CostBasisLot) : list (nat * CostBasisLot) :=
  filter (fun p => qlt 0 (remainingAmount (snd p))) (combine (seq 0 (List.length lots)) lots).

Definition sortedAvailable (lots : list CostBasisLot) (m : CostBasisMethod) :=
  js_sort (fun a b => methodCmp m (snd a) (snd b)) (indexedAvailable lots).

(** All lots of the store, in [Object.values(...).flat()] order. *)
Definition allLots (st : CBState) : list CostBasisLot := concat (map snd (st_lotsByAsset st)).

Definition lotsOf (A : string) (st : CBState) : list CostBasisLot :=
  match rec_get A (st_lotsByAsset st) with Some l => l | None => [] end.

(** Shape of the store: one entry per key, each holding lots of that asset. *)
Definition StoreWF (st : CBState) : Prop :=
  NoDup (map fst (st_lotsByAsset st)) /\
  Forall (fun e => Forall (fun l => lot_asset l = fst e) (snd e)) (st_lotsByAsset st).

Definition oldOf {X} (k : string) (r : list (string * list X)) : list X :=
  match rec_get k r with Some o => o | None => [] end.

(** Erasure of the generated lot ids in the engine's intermediate states. *)
Definition eraseEntry (e : string * list CostBasisLot) : string * list CostBasisLot :=
  (fst e, map eraseLot (snd e)).

Definition eraseState (st : CBState) : CBState :=
  {| st_lotsByAsset := map eraseEntry (st_lotsByAsset st);
     st_sales := map eraseSale (st_sales st);
     st_totalGains := st_totalGains st; st_totalLosses := st_totalLosses st;
     st_created := st_created st |}.

Definition eraseLoop (s : SellLoop) : SellLoop :=
  {| lp_lots := map eraseLot (lp_lots s); lp_remainingToSell := lp_remainingToSell s;
     lp_totalCostBasis := lp_totalCostBasis s; lp_lotsUsed := map eraseUsed (lp_lotsUsed s) |}.

(** The [sell] branch computed on id-erased lots with the reference loop. *)
Definition sellErased (m : CostBasisMethod) (lots : list CostBasisLot) (tx : Transaction)
  : list CostBasisLot * SaleResult :=
  let r := consumeRef (getLotsForMethod lots m) (mkLoop lots (tx_amount tx) 0 []) in
  (lp_lots r, mkSale tx (tx_valueEur tx) (lp_totalCostBasis r)
                     (tx_valueEur tx - lp_totalCostBasis r) (lp_lotsUsed r)).

(** ** Example histories *)

(** Two runs of the clock and random generator: the same [Date.now()]
    readings, different [Math.random()] suffixes. *)
Definition clockReading (k : nat) : string :=
  String.append "17000000000" (String (ascii_of_nat (48 + k)) EmptyString).

Definition env0 (k : nat) : string * string := (clockReading k, "k3x9a"%string).
Definition env1 (k : nat) : string * string := (clockReading k, "p0q7z"%string).

(** Three ETH purchases of one unit costing 30, 10 and 20 EUR, in that
    order, then a sale of two units. *)
Definition ethHistory : list Transaction :=
  [ mkTx "0xa1" buy "ETH" 1 30 1700000000000%Z;
    mkTx "0xa2" buy "ETH" 1 10 1700000100000%Z;
    mkTx "0xa3" buy "ETH" 1 20 1700000200000%Z;
    mkTx "0xa4" sell "ETH" 2 100 1700000300000%Z ].

(** An incoming transfer of 1 SOL with no known value, then its sale for 100 EUR. *)
Definition solHistory : list Transaction :=
  [ mkTx "0xb1" transfer "SOL" 1 0 1700000000000%Z;
    mkTx "0xb2" sell "SOL" 1 100 1700000100000%Z ].

(** A purchase recorded with a negative amount (the schema only asks for a number). *)
Definition negativeBuy : list Transaction :=
  [ mkTx "0xc1" buy "BTC" (-1) 50 1700000000000%Z ].

(** The costs per unit of the lots each sale consumed, in consumption order. *)
Definition consumedCosts (r : CostBasisResult) : list (list Q) :=
  map (fun s => map used_costPerUnit (lotsUsed s)) (cb_sales r).

(** Unrealized positions and current prices; the SOL position has a
    negative cost basis. *)
Definition exampleUnrealized : list (string * Unrealized) :=
  [("ETH"%string, mkUnreal 2 50 25); ("SOL"%string, mkUnreal 3 (-30) (-10))].

Definition examplePrices : list (string * Q) := [("ETH"%string, 2000); ("SOL"%string, 100)].

(** ** Invariants of sales and lots *)

(** A consumed lot entry: a positive amount, costed at the lot's unit cost. *)
Definition usedOK (u : LotUsed) : Prop :=
  0 < amountUsed u /\ used_cost u == amountUsed u * used_costPerUnit u.

(** A sale record: its cost is the sum of its lot costs, its gain is
    proceeds minus cost, and it consumed at most the amount sold. *)
Definition saleOK (s : SaleResult) : Prop :=
  costBasis s == sumQ (map used_cost (lotsUsed s)) /\
  gainLoss s = proceeds s - costBasis s /\
  Forall usedOK (lotsUsed s) /\
  sumQ (map amountUsed (lotsUsed s)) <= js_max 0 (tx_amount (sale_transaction s)).

Definition lotOK (l : CostBasisLot) : Prop := remainingAmount l <= lot_amount l.

(** A concrete serialisation of string arrays, used to instantiate the
    [JSON.stringify] / [JSON.parse] pair of [Storage.AssetLists]: each
    character is written after an ["a"] marker and each element ends with
    ["z"]; the whole array starts with ["["]. *)
Fixpoint encStr (x : string) : string :=
  match x with
  | EmptyString => "z"%string
  | String c r => String "a"%char (String c (encStr r))
  end.

Fixpoint encList (l : list string) : string :=
  match l with
  | [] => EmptyString
  | x :: xs => (encStr x ++ encList xs)%string
  end.

Fixpoint decList (s : string) : option (list string) :=
  match s with
  | EmptyString => Some []
  | String c0 r =>
      if Ascii.eqb c0 "z"%char then option_map (cons EmptyString) (decList r)
      else if Ascii.eqb c0 "a"%char then
        match r with
        | String c r' =>
            match decList r' with
            | Some (y :: ys) => Some (String c y :: ys)
            | _ => None
            end
        | EmptyString => None
        end
      else None
  end.

Definition stringifyStringsEx (l : list string) : string := String "["%char (encList l).

Definition parseStringsEx (s : string) : option (list string) :=
  match s with
  | String c r => if Ascii.eqb c "["%char then decList r else None
  | EmptyString => None
  end.

(** The entries left after [localStorage.removeItem] of each key in turn. *)
Definition removeAll {V} (ks : list string) (r : list (string * V)) : list (string * V) :=
  fold_left (fun acc k => filter (fun e => negb (String.eqb (fst e) k)) acc) ks r.

(** The store [importBackupData] leaves after a version-1 backup with an
    unlocked vault. *)
Definition importedStore Val UnlockedVault JSON_stringify emptyArray DEFAULT_SETTINGS
    settingsSafeParse versionedSettings b s :=
  snd (Storage.importBackupData Val UnlockedVault JSON_stringify emptyArray DEFAULT_SETTINGS
         settingsSafeParse versionedSettings (Some b) s).

(** Transactions other than stakes. *)
Definition notStake (tx : Transaction) : bool :=
  match tx_type tx with stake => false | _ => true end.

(** The comparator of [processingOrder]. *)
Definition tsCmp (a b : Transaction) : Q := inject_Z (tx_timestamp a - tx_timestamp b).

(** ** Lemmas *)

Lemma qlt_true a b : qlt a b = true <-> a < b.
Proof.
  unfold qlt. rewrite negb_true_iff. split; intro H.
  - apply Qnot_le_lt. intro H'. apply Qle_bool_iff in H'. congruence.
  - destruct (Qle_bool b a) eqn:E; [|reflexivity].
    apply Qle_bool_iff in E. exfalso. apply (Qlt_not_le _ _ H E).
Qed.

Lemma qlt_false a b : qlt a b = false <-> b <= a.
Proof.
  unfold qlt. rewrite negb_false_iff. apply Qle_bool_iff.
Qed.

Lemma qle_true a b : qle a b = true <-> a <= b.
Proof. apply Qle_bool_iff. Qed.

Lemma qle_false a b : qle a b = false <-> b < a.
Proof.
  unfold qle. split; intro H.
  - apply Qnot_le_lt. intro H'. apply Qle_bool_iff in H'. congruence.
  - destruct (Qle_bool a b) eqn:E; [|reflexivity].
    apply Qle_bool_iff in E. exfalso. apply (Qlt_not_le _ _ H E).
Qed.

Ltac qbool :=
  repeat match goal with
  | H : qlt _ _ = true |- _ => apply qlt_true in H
  | H : qlt _ _ = false |- _ => apply qlt_false in H
  | H : qle _ _ = true |- _ => apply qle_true in H
  | H : qle _ _ = false |- _ => apply qle_false in H
  end.

Lemma distinctb_NoDup l : distinctb l = true -> NoDup l.
Proof.
  induction l as [|x r IH]; simpl; intro H; constructor.
  - apply andb_true_iff in H as [H _]. apply negb_true_iff in H.
    intro Hin. assert (existsb (String.eqb x) r = true) as E.
    { apply existsb_exists. exists x. split; [exact Hin|apply String.eqb_refl]. }
    congruence.
  - apply IH. apply andb_true_iff in H as [_ H]. exact H.
Qed.

(** *** In-place updates of the lot array *)

Lemma nth_error_update_at {A} (f : A -> A) l i j :
  nth_error (update_at i f l) j =
  if Nat.eqb i j then option_map f (nth_error l j) else nth_error l j.
Proof.
  revert i j. induction l as [|x r IH]; intros i j.
  - destruct i, j; simpl; try reflexivity; destruct (Nat.eqb _ _); reflexivity.
  - destruct i, j; simpl; try reflexivity. apply IH.
Qed.

Lemma map_update_at {A B} (g : A -> B) (f : A -> A) l i :
  (forall x, g (f x) = g x) -> map g (update_at i f l) = map g l.
Proof.
  intro Hg. revert i. induction l as [|x r IH]; intros [|i]; simpl;
    try rewrite Hg; try rewrite IH; reflexivity.
Qed.

Lemma length_update_at {A} (f : A -> A) l i : List.length (update_at i f l) = List.length l.
Proof.
  revert i. induction l as [|x r IH]; intros [|i]; simpl; auto.
Qed.

Lemma find_index_lot_id l i x :
  NoDup (map lot_id l) -> nth_error l i = Some x ->
  find_index (fun y => String.eqb (lot_id y) (lot_id x)) l = Some i.
Proof.
  revert i. induction l as [|y r IH]; intros i Hnd Hx.
  - destruct i; discriminate.
  - simpl in Hnd. inversion Hnd as [|? ? Hnotin Hnd']; subst.
    destruct i as [|j]; simpl in Hx |- *.
    + injection Hx as ->. rewrite String.eqb_refl. reflexivity.
    + destruct (String.eqb (lot_id y) (lot_id x)) eqn:E.
      * apply String.eqb_eq in E. exfalso. apply Hnotin. rewrite E.
        apply in_map. eapply nth_error_In. exact Hx.
      * rewrite (IH j Hnd' Hx). reflexivity.
Qed.


Lemma consumeLots_fields {B} (g : CostBasisLot -> B) o s :
  keepsFields g -> map g (lp_lots (consumeLots o s)) = map g (lp_lots s).
Proof.
  intro Hg. revert s. induction o as [|i rest IH]; intro s; simpl; [reflexivity|].
  destruct (qle (lp_remainingToSell s) 0); [reflexivity|].
  destruct (nth_error (lp_lots s) i) as [lot|]; [|apply IH].
  destruct (qle (remainingAmount lot) 0); [apply IH|].
  rewrite IH. simpl.
  destruct (find_index _ _); [|reflexivity]. apply map_update_at. intro; apply Hg.
Qed.

Lemma consumeRef_fields {B} (g : CostBasisLot -> B) o s :
  keepsFields g -> map g (lp_lots (consumeRef o s)) = map g (lp_lots s).
Proof.
  intro Hg. revert s. induction o as [|i rest IH]; intro s; simpl; [reflexivity|].
  destruct (qle (lp_remainingToSell s) 0); [reflexivity|].
  destruct (nth_error (lp_lots s) i) as [lot|]; [|apply IH].
  destruct (qle (remainingAmount lot) 0); [apply IH|].
  rewrite IH. simpl. apply map_update_at. intro; apply Hg.
Qed.

Lemma keeps_lot_id : keepsFields lot_id. Proof. intros a l; reflexivity. Qed.
Lemma keeps_lot_asset : keepsFields lot_asset. Proof. intros a l; reflexivity. Qed.

(** With distinct lot ids, [lots.find(l => l.id === lot.id)] is [lot]. *)
Lemma consumeLots_ref o s :
  NoDup (map lot_id (lp_lots s)) -> consumeLots o s = consumeRef o s.
Proof.
  revert s. induction o as [|i rest IH]; intros s Hnd; simpl; [reflexivity|].
  destruct (qle (lp_remainingToSell s) 0); [reflexivity|].
  destruct (nth_error (lp_lots s) i) as [lot|] eqn:Ei; [|apply IH; exact Hnd].
  destruct (qle (remainingAmount lot) 0); [apply IH; exact Hnd|].
  rewrite (find_index_lot_id _ _ _ Hnd Ei). apply IH. simpl.
  rewrite map_update_at; [exact Hnd|]. intro; reflexivity.
Qed.

(** *** The reference loop *)


Lemma js_min_l a b : a <= b -> js_min a b = a.
Proof. intro H. unfold js_min. apply qle_true in H. rewrite H. reflexivity. Qed.

Lemma js_min_r a b : b < a -> js_min a b = b.
Proof. intro H. unfold js_min. apply qle_false in H. rewrite H. reflexivity. Qed.

Lemma consumeRef_stop o s : lp_remainingToSell s <= 0 -> consumeRef o s = s.
Proof.
  intro H. destruct o as [|i rest]; simpl; [reflexivity|].
  apply qle_true in H. rewrite H. reflexivity.
Qed.

Lemma lotsAt_update_notin f lots i idx :
  ~ In i idx -> lotsAt (update_at i f lots) idx = lotsAt lots idx.
Proof.
  induction idx as [|j r IH]; intro Hn; simpl; [reflexivity|].
  rewrite nth_error_update_at.
  destruct (Nat.eqb i j) eqn:E.
  - apply Nat.eqb_eq in E. subst. exfalso. apply Hn. left; reflexivity.
  - rewrite IH; [reflexivity|]. intro; apply Hn; right; assumption.
Qed.

Lemma Ready_step i rest s l f ts cost used :
  Ready (i :: rest) s -> nth_error (lp_lots s) i = Some l ->
  Ready rest (mkLoop (update_at i f (lp_lots s)) ts cost used).
Proof.
  intros [Hnd Hav] _. inversion Hnd as [|? ? Hni Hnd']; subst. split; [exact Hnd'|].
  intros j Hj. simpl. rewrite nth_error_update_at.
  destruct (Nat.eqb i j) eqn:E.
  - apply Nat.eqb_eq in E. subst. contradiction.
  - apply Hav. right; exact Hj.
Qed.

Lemma sumRem_lotsAt_nonneg o s : Ready o s -> 0 <= sumRem (lotsAt (lp_lots s) o).
Proof.
  revert s. induction o as [|i rest IH]; intros s HR; simpl; [unfold sumRem; simpl; lra|].
  destruct HR as [Hnd Hav]. destruct (Hav i (or_introl eq_refl)) as [l [Hl Hpos]].
  rewrite Hl. unfold sumRem in *. simpl.
  assert (Ready rest s) as HR'.
  { inversion Hnd; subst. split; [assumption|]. intros j Hj; apply Hav; right; exact Hj. }
  specialize (IH s HR'). lra.
Qed.

Lemma sumRem_update l i x a :
  nth_error l i = Some x -> sumRem (update_at i (decRemaining a) l) == sumRem l - a.
Proof.
  unfold sumRem. revert i. induction l as [|y r IH]; intros [|i] H; try discriminate; simpl in *.
  - injection H as ->. lra.
  - specialize (IH i H). lra.
Qed.

Lemma Forall_update_at {A} (P : A -> Prop) f l i x :
  nth_error l i = Some x -> P (f x) -> Forall P l -> Forall P (update_at i f l).
Proof.
  revert i. induction l as [|y r IH]; intros [|i] H Hf HF; try discriminate; simpl in *;
    inversion HF; subst.
  - injection H as ->. constructor; assumption.
  - constructor; [assumption|]. eapply IH; eauto.
Qed.

(** [lotsUsed] lists a prefix of the ordered lots. *)
Lemma consumeRef_prefix o s :
  Ready o s ->
  exists k, map (fun u => (lotId u, used_costPerUnit u)) (lp_lotsUsed (consumeRef o s)) =
            map (fun u => (lotId u, used_costPerUnit u)) (lp_lotsUsed s) ++
            firstn k (map (fun l => (lot_id l, costPerUnit l)) (lotsAt (lp_lots s) o)).
Proof.
  revert s. induction o as [|i rest IH]; intros s HR; simpl.
  - exists O. rewrite app_nil_r. reflexivity.
  - destruct (qle (lp_remainingToSell s) 0).
    { exists O. rewrite app_nil_r. reflexivity. }
    pose proof HR as [Hnd Hav]. destruct (Hav i (or_introl eq_refl)) as [l [Hl Hpos]].
    rewrite Hl.
    assert (qle (remainingAmount l) 0 = false) as E by (apply qle_false; exact Hpos).
    rewrite E.
    set (a := js_min (remainingAmount l) (lp_remainingToSell s)).
    edestruct (IH (mkLoop (update_at i (decRemaining a) (lp_lots s))
                     (lp_remainingToSell s - a) (lp_totalCostBasis s + a * costPerUnit l)
                     (lp_lotsUsed s ++ [mkUsed (lot_id l) a (costPerUnit l) (a * costPerUnit l)])))
      as [k Hk].
    { eapply Ready_step; [exact HR|exact Hl]. }
    exists (S k). rewrite Hk. simpl.
    inversion Hnd; subst.
    rewrite lotsAt_update_notin by assumption.
    rewrite map_app. simpl. rewrite <- app_assoc. reflexivity.
Qed.

(** Amount conservation: what leaves the lots is what was sold. *)
Lemma consumeRef_sum o s :
  sumRem (lp_lots (consumeRef o s)) - lp_remainingToSell (consumeRef o s) ==
  sumRem (lp_lots s) - lp_remainingToSell s.
Proof.
  revert s. induction o as [|i rest IH]; intro s; simpl; [reflexivity|].
  destruct (qle (lp_remainingToSell s) 0); [reflexivity|].
  destruct (nth_error (lp_lots s) i) as [l|] eqn:Hl; [|apply IH].
  destruct (qle (remainingAmount l) 0); [apply IH|].
  rewrite IH. simpl. rewrite (sumRem_update _ _ _ _ Hl). lra.
Qed.

Lemma consumeRef_cost o s :
  lp_totalCostBasis (consumeRef o s) - sumQ (map used_cost (lp_lotsUsed (consumeRef o s))) ==
  lp_totalCostBasis s - sumQ (map used_cost (lp_lotsUsed s)).
Proof.
  revert s. induction o as [|i rest IH]; intro s; simpl; [reflexivity|].
  destruct (qle (lp_remainingToSell s) 0); [reflexivity|].
  destruct (nth_error (lp_lots s) i) as [l|] eqn:Hl; [|apply IH].
  destruct (qle (remainingAmount l) 0); [apply IH|].
  rewrite IH. simpl. rewrite map_app.
  assert (forall xs ys, sumQ (xs ++ ys) == sumQ xs + sumQ ys) as Happ.
  { induction xs as [|x xs IHx]; intro ys; simpl; [lra|]. rewrite IHx. lra. }
  rewrite Happ. simpl. lra.
Qed.

Lemma consumeRef_nonneg o s :
  Forall (fun l => 0 <= remainingAmount l) (lp_lots s) ->
  Forall (fun l => 0 <= remainingAmount l) (lp_lots (consumeRef o s)).
Proof.
  revert s. induction o as [|i rest IH]; intros s HF; simpl; [exact HF|].
  destruct (qle (lp_remainingToSell s) 0) eqn:Ets; [exact HF|].
  destruct (nth_error (lp_lots s) i) as [l|] eqn:Hl; [|apply IH; exact HF].
  destruct (qle (remainingAmount l) 0) eqn:Er; [apply IH; exact HF|].
  apply IH. simpl. eapply Forall_update_at; [exact Hl| |exact HF].
  simpl. qbool. unfold js_min.
  destruct (qle (remainingAmount l) (lp_remainingToSell s)) eqn:E; qbool; lra.
Qed.

(** A sale covered by the ordered lots is filled completely. *)
Lemma consumeRef_cover o s :
  Ready o s -> 0 < lp_remainingToSell s ->
  lp_remainingToSell s <= sumRem (lotsAt (lp_lots s) o) ->
  lp_remainingToSell (consumeRef o s) == 0.
Proof.
  revert s. induction o as [|i rest IH]; intros s HR Hpos Hle.
  - unfold sumRem in Hle. simpl in Hle. lra.
  - simpl. assert (qle (lp_remainingToSell s) 0 = false) as E0 by (apply qle_false; exact Hpos).
    rewrite E0. pose proof HR as [Hnd Hav].
    destruct (Hav i (or_introl eq_refl)) as [l [Hl Hl0]]. rewrite Hl.
    assert (qle (remainingAmount l) 0 = false) as E1 by (apply qle_false; exact Hl0).
    rewrite E1. simpl in Hle. rewrite Hl in Hle. unfold sumRem in Hle. simpl in Hle.
    inversion Hnd; subst.
    destruct (Qlt_le_dec (lp_remainingToSell s) (remainingAmount l)) as [Hlt|Hge].
    + rewrite (js_min_r _ _ Hlt). rewrite consumeRef_stop; simpl; lra.
    + rewrite (js_min_l _ _ Hge).
      set (s' := mkLoop _ _ _ _).
      assert (Ready rest s') as HR' by (eapply Ready_step; [exact HR|exact Hl]).
      destruct (Qlt_le_dec 0 (lp_remainingToSell s - remainingAmount l)) as [Hp|Hz].
      * apply IH; [exact HR'|simpl; exact Hp|].
        simpl. rewrite lotsAt_update_notin by assumption. unfold sumRem. lra.
      * rewrite consumeRef_stop; simpl; lra.
Qed.

(** An over-sell consumes every ordered lot; the rest is left at zero cost. *)
Lemma consumeRef_over o s :
  Ready o s -> sumRem (lotsAt (lp_lots s) o) < lp_remainingToSell s ->
  lp_remainingToSell (consumeRef o s) == lp_remainingToSell s - sumRem (lotsAt (lp_lots s) o) /\
  lp_totalCostBasis (consumeRef o s) == lp_totalCostBasis s + sumCost (lotsAt (lp_lots s) o).
Proof.
  revert s. induction o as [|i rest IH]; intros s HR Hlt.
  - simpl. unfold sumRem, sumCost. simpl. split; lra.
  - pose proof (sumRem_lotsAt_nonneg _ _ HR) as Hnn.
    simpl. pose proof HR as [Hnd Hav].
    destruct (Hav i (or_introl eq_refl)) as [l [Hl Hl0]].
    simpl in Hlt, Hnn. rewrite Hl in Hlt, Hnn |- *. unfold sumRem in Hlt, Hnn. simpl in Hlt, Hnn.
    assert (Ready rest s) as HRs.
    { inversion Hnd; subst. split; [assumption|]. intros j Hj; apply Hav; right; exact Hj. }
    pose proof (sumRem_lotsAt_nonneg _ _ HRs) as Hnr. unfold sumRem in Hnr.
    assert (qle (lp_remainingToSell s) 0 = false) as E0 by (apply qle_false; lra).
    rewrite E0.
    assert (qle (remainingAmount l) 0 = false) as E1 by (apply qle_false; exact Hl0).
    rewrite E1. rewrite (js_min_l (remainingAmount l) (lp_remainingToSell s)) by lra.
    inversion Hnd; subst.
    set (s' := mkLoop _ _ _ _).
    assert (Ready rest s') as HR' by (eapply Ready_step; [exact HR|exact Hl]).
    assert (sumRem (lotsAt (lp_lots s') rest) < lp_remainingToSell s') as Hlt'.
    { subst s'; simpl; rewrite lotsAt_update_notin by assumption; unfold sumRem in *; lra. }
    destruct (IH s' HR' Hlt') as [Hts Hcost].
    subst s'. simpl in Hts, Hcost. rewrite lotsAt_update_notin in Hts, Hcost by assumption.
    unfold sumRem, sumCost in *. simpl. split; lra.
Qed.

(** *** Sorting and the ordered lots *)

Lemma js_insert_perm {A} (cmp : A -> A -> Q) x l : Permutation (js_insert cmp x l) (x :: l).
Proof.
  induction l as [|y ys IH]; simpl; [reflexivity|].
  destruct (qle (cmp x y) 0); [reflexivity|].
  rewrite IH. apply perm_swap.
Qed.

Lemma js_sort_perm {A} (cmp : A -> A -> Q) l : Permutation (js_sort cmp l) l.
Proof.
  induction l as [|x xs IH]; simpl; [reflexivity|].
  rewrite js_insert_perm. apply perm_skip, IH.
Qed.

Section SortSorted.
Variable A : Type.
Variable cmp : A -> A -> Q.
Variable R : A -> A -> Prop.
Hypothesis cmp_le : forall x y, qle (cmp x y) 0 = true -> R x y.
Hypothesis cmp_gt : forall x y, qle (cmp x y) 0 = false -> R y x.

Lemma js_insert_hd y x l : HdRel R y l -> R y x -> HdRel R y (js_insert cmp x l).
Proof.
  intros Hd Hyx. destruct l as [|z zs]; simpl.
  - constructor; exact Hyx.
  - destruct (qle (cmp x z) 0); constructor; [exact Hyx|]. inversion Hd; assumption.
Qed.

Lemma js_insert_sorted x l : Sorted R l -> Sorted R (js_insert cmp x l).
Proof.
  induction l as [|y ys IH]; intro HS; simpl.
  - repeat constructor.
  - destruct (qle (cmp x y) 0) eqn:E.
    + constructor; [exact HS|]. constructor. apply cmp_le; exact E.
    + apply Sorted_inv in HS as [HS Hd]. constructor; [apply IH; exact HS|].
      apply js_insert_hd; [exact Hd|]. apply cmp_gt; exact E.
Qed.

Lemma js_sort_sorted l : Sorted R (js_sort cmp l).
Proof.
  induction l as [|x xs IH]; simpl; [constructor|]. apply js_insert_sorted, IH.
Qed.
End SortSorted.

Lemma methodCmp_le m a b : qle (methodCmp m a b) 0 = true -> methodOrder m a b.
Proof.
  intro H. apply qle_true in H. destruct m; simpl in *.
  - change 0 with (inject_Z 0) in H. rewrite <- Zle_Qle in H. lia.
  - change 0 with (inject_Z 0) in H. rewrite <- Zle_Qle in H. lia.
  - lra.
Qed.

Lemma methodCmp_gt m a b : qle (methodCmp m a b) 0 = false -> methodOrder m b a.
Proof.
  intro H. apply qle_false in H. destruct m; simpl in *.
  - change 0 with (inject_Z 0) in H. rewrite <- Zlt_Qlt in H. lia.
  - change 0 with (inject_Z 0) in H. rewrite <- Zlt_Qlt in H. lia.
  - lra.
Qed.

Lemma Sorted_map_snd {B C} (R : C -> C -> Prop) (l : list (B * C)) :
  Sorted (fun p q => R (snd p) (snd q)) l -> Sorted R (map snd l).
Proof.
  induction 1 as [|p l HS IH Hd]; simpl; constructor; [exact IH|].
  destruct Hd; simpl; constructor; assumption.
Qed.


Lemma indexed_nth k (lots : list CostBasisLot) i l :
  In (i, l) (combine (seq k (List.length lots)) lots) -> nth_error lots (i - k)%nat = Some l /\ (k <= i)%nat.
Proof.
  revert k. induction lots as [|x xs IH]; intros k H; simpl in H; [contradiction|].
  destruct H as [H|H].
  - injection H as <- <-. rewrite Nat.sub_diag. split; [reflexivity|lia].
  - destruct (IH (S k) H) as [Hn Hk]. replace (i - k)%nat with (S (i - S k)) by lia.
    split; [exact Hn|lia].
Qed.

Lemma indexed_snd k (lots : list CostBasisLot) g :
  map snd (filter (fun p => g (snd p)) (combine (seq k (List.length lots)) lots)) = filter g lots.
Proof.
  revert k. induction lots as [|x xs IH]; intro k; simpl; [reflexivity|].
  destruct (g x); simpl; rewrite IH; reflexivity.
Qed.

Lemma indexed_fst k (lots : list CostBasisLot) : map fst (combine (seq k (List.length lots)) lots) = seq k (List.length lots).
Proof.
  revert k. induction lots as [|x xs IH]; intro k; simpl; [reflexivity|]. rewrite IH; reflexivity.
Qed.

Lemma NoDup_map_fst_filter {B C} (f : B * C -> bool) l :
  NoDup (map fst l) -> NoDup (map fst (filter f l)).
Proof.
  induction l as [|p l IH]; intro H; simpl; [constructor|].
  inversion H; subst. destruct (f p); simpl; [|apply IH; assumption].
  constructor; [|apply IH; assumption].
  intro Hin. apply in_map_iff in Hin as [q [Hq Hin]]. apply filter_In in Hin as [Hin _].
  apply H2. rewrite <- Hq. apply in_map; exact Hin.
Qed.

Lemma lotsAt_pairs lots (S : list (nat * CostBasisLot)) :
  Forall (fun p => nth_error lots (fst p) = Some (snd p)) S -> lotsAt lots (map fst S) = map snd S.
Proof.
  induction 1 as [|p S Hp HS IH]; simpl; [reflexivity|]. rewrite Hp, IH. reflexivity.
Qed.


Lemma sortedAvailable_pairs lots m :
  Forall (fun p => nth_error lots (fst p) = Some (snd p) /\ 0 < remainingAmount (snd p))
         (sortedAvailable lots m).
Proof.
  apply Forall_forall. intros [i l] Hin.
  apply (Permutation_in _ (js_sort_perm _ _)) in Hin.
  unfold indexedAvailable in Hin. apply filter_In in Hin as [Hin Hav].
  apply indexed_nth in Hin as [Hn _]. rewrite Nat.sub_0_r in Hn. simpl.
  split; [exact Hn|]. apply qlt_true; exact Hav.
Qed.

Lemma getLotsForMethod_lots lots m :
  lotsAt lots (getLotsForMethod lots m) = map snd (sortedAvailable lots m).
Proof.
  unfold getLotsForMethod. fold (indexedAvailable lots). fold (sortedAvailable lots m).
  apply lotsAt_pairs. eapply Forall_impl; [|apply sortedAvailable_pairs]. intros p [H _]; exact H.
Qed.

Lemma getLotsForMethod_perm lots m :
  Permutation (lotsAt lots (getLotsForMethod lots m)) (filter isAvailable lots).
Proof.
  rewrite getLotsForMethod_lots. unfold sortedAvailable.
  rewrite (Permutation_map snd (js_sort_perm _ _)). unfold indexedAvailable.
  pose proof (indexed_snd 0 lots isAvailable) as E. cbv beta delta [isAvailable] in E |- *.
  rewrite E. reflexivity.
Qed.

Lemma getLotsForMethod_sorted lots m :
  Sorted (methodOrder m) (lotsAt lots (getLotsForMethod lots m)).
Proof.
  rewrite getLotsForMethod_lots. apply Sorted_map_snd. unfold sortedAvailable.
  apply js_sort_sorted.
  - intros x y H. apply methodCmp_le; exact H.
  - intros x y H. apply methodCmp_gt; exact H.
Qed.

Lemma getLotsForMethod_ready lots m ts c u :
  Ready (getLotsForMethod lots m) (mkLoop lots ts c u).
Proof.
  split.
  - unfold getLotsForMethod. fold (indexedAvailable lots).
    apply (Permutation_NoDup (Permutation_map fst (Permutation_sym (js_sort_perm _ _)))).
    unfold indexedAvailable. apply NoDup_map_fst_filter. rewrite indexed_fst. apply seq_NoDup.
  - intros i Hi. unfold getLotsForMethod in Hi. fold (indexedAvailable lots) in Hi.
    fold (sortedAvailable lots m) in Hi.
    apply in_map_iff in Hi as [[j l] [Hj Hin]]. simpl in Hj. subst j.
    pose proof (sortedAvailable_pairs lots m) as HF. rewrite Forall_forall in HF.
    destruct (HF _ Hin) as [Hn Hp]. exists l. split; assumption.
Qed.

(** *** Sums *)

Lemma sumQ_app xs ys : sumQ (xs ++ ys) == sumQ xs + sumQ ys.
Proof. induction xs as [|x xs IH]; simpl; [lra|]. rewrite IH. lra. Qed.

Lemma sumQ_perm l l' : Permutation l l' -> sumQ l == sumQ l'.
Proof.
  induction 1 as [| x l l' _ IH | x y l | l l' l'' _ IH1 _ IH2]; simpl.
  - reflexivity.
  - rewrite IH. reflexivity.
  - lra.
  - rewrite IH1, IH2. reflexivity.
Qed.

Lemma filter_perm {A} (f : A -> bool) l l' : Permutation l l' -> Permutation (filter f l) (filter f l').
Proof.
  induction 1 as [| x l l' _ IH | x y l | l l' l'' _ IH1 _ IH2]; simpl.
  - constructor.
  - destruct (f x); [constructor|]; exact IH.
  - destruct (f x), (f y); try constructor; reflexivity.
  - rewrite IH1; exact IH2.
Qed.

Lemma sumRem_available lots :
  Forall (fun l => 0 <= remainingAmount l) lots -> sumRem (filter isAvailable lots) == sumRem lots.
Proof.
  unfold sumRem. induction 1 as [|l lots Hl _ IH]; simpl; [reflexivity|].
  unfold isAvailable at 1. destruct (qlt 0 (remainingAmount l)) eqn:E; simpl; qbool; lra.
Qed.

Lemma sumRem_nonneg lots : Forall (fun l => 0 <= remainingAmount l) lots -> 0 <= sumRem lots.
Proof. unfold sumRem. induction 1; simpl; lra. Qed.

(** *** The store [lotsByAsset] *)

Lemma rec_get_rec_set {V} k k' (v : V) r :
  rec_get k (rec_set k' v r) = if String.eqb k k' then Some v else rec_get k r.
Proof.
  induction r as [|[k2 v2] r IH]; simpl.
  - reflexivity.
  - destruct (String.eqb_spec k' k2) as [->|Hne]; simpl.
    + destruct (String.eqb k k2); reflexivity.
    + rewrite IH. destruct (String.eqb_spec k k2) as [->|Hne2], (String.eqb_spec k2 k') as [->|Hne3];
        try reflexivity; congruence.
Qed.

Lemma concat_rec_set {X} k (v : list X) r :
  Permutation (concat (map snd (rec_set k v r)) ++ oldOf k r) (v ++ concat (map snd r)).
Proof.
  unfold oldOf. induction r as [|[k' v'] r IH]; simpl.
  - rewrite !app_nil_r. reflexivity.
  - destruct (String.eqb k k'); simpl.
    + rewrite <- !app_assoc. apply Permutation_app_head. apply Permutation_app_comm.
    + rewrite <- app_assoc, IH. apply Permutation_app_swap_app.
Qed.

Lemma ids_rec_set k v r :
  Permutation (map lot_id (concat (map snd (rec_set k v r))) ++ map lot_id (oldOf k r))
              (map lot_id v ++ map lot_id (concat (map snd r))).
Proof. rewrite <- !map_app. apply Permutation_map, concat_rec_set. Qed.

Lemma rec_get_concat {X} k (v : list X) r :
  rec_get k r = Some v -> exists pre post, concat (map snd r) = pre ++ v ++ post.
Proof.
  induction r as [|[k' v'] r IH]; simpl; intro H; [discriminate|].
  destruct (String.eqb k k').
  - injection H as ->. exists [], (concat (map snd r)). reflexivity.
  - destruct (IH H) as [pre [post E]]. exists (v' ++ pre), post. rewrite E, <- app_assoc. reflexivity.
Qed.

Lemma lotsOf_nodup A st :
  NoDup (map lot_id (allLots st)) -> NoDup (map lot_id (lotsOf A st)).
Proof.
  unfold lotsOf, allLots. destruct (rec_get A (st_lotsByAsset st)) as [v|] eqn:E; intro H.
  - destruct (rec_get_concat _ _ _ E) as [pre [post Ec]]. rewrite Ec, !map_app in H.
    apply NoDup_app_remove_l in H. apply NoDup_app_remove_r in H. exact H.
  - constructor.
Qed.

Lemma perm_cancel {A} (o c' v w c : list A) :
  Permutation (c' ++ o) (v ++ c) -> v = o ++ w -> Permutation c' (w ++ c).
Proof.
  intros P ->. apply (Permutation_app_inv_l o).
  rewrite app_assoc, <- P. apply Permutation_app_comm.
Qed.

(** The ids after a step are those before, plus the new lot's id. *)
Lemma processTx_ids env m st tx :
  exists w, Permutation (map lot_id (allLots (processTx env m st tx))) (w ++ map lot_id (allLots st)).
Proof.
  unfold processTx, allLots.
  set (asset := toUpperCase (tx_asset tx)).
  destruct (tx_type tx); simpl.
  1, 3, 5:
    eexists; eapply perm_cancel; [apply ids_rec_set|];
    unfold oldOf; rewrite map_app; reflexivity.
  - destruct (rec_get asset (st_lotsByAsset st)) as [lots|] eqn:E; simpl.
    + exists []. eapply perm_cancel; [apply ids_rec_set|].
      unfold oldOf. rewrite E, app_nil_r. apply consumeLots_fields, keeps_lot_id.
    + exists []. reflexivity.
  - exists []. reflexivity.
Qed.

Lemma processTx_nodup env m st tx :
  NoDup (map lot_id (allLots (processTx env m st tx))) -> NoDup (map lot_id (allLots st)).
Proof.
  intro H. destruct (processTx_ids env m st tx) as [w P].
  apply (Permutation_NoDup P) in H. apply NoDup_app_remove_l in H. exact H.
Qed.

Lemma run_nodup env m txs st :
  NoDup (map lot_id (allLots (fold_left (processTx env m) txs st))) -> NoDup (map lot_id (allLots st)).
Proof.
  revert st. induction txs as [|tx txs IH]; intros st H; simpl in H; [exact H|].
  apply (processTx_nodup env m st tx), IH, H.
Qed.

Lemma rec_set_keys {V} k (v : V) r x : In x (map fst (rec_set k v r)) -> x = k \/ In x (map fst r).
Proof.
  induction r as [|[k' v'] r IH]; simpl; intro H.
  - destruct H as [H|[]]. left; symmetry; exact H.
  - destruct (String.eqb_spec k k') as [->|Hne]; simpl in H.
    + right; exact H.
    + destruct H as [H|H]; [right; left; exact H|]. destruct (IH H); [left|right; right]; assumption.
Qed.

Lemma rec_set_nodup {V} k (v : V) r : NoDup (map fst r) -> NoDup (map fst (rec_set k v r)).
Proof.
  induction r as [|[k' v'] r IH]; simpl; intro H.
  - repeat constructor. simpl; tauto.
  - inversion H as [|? ? Hni Hnd]; subst.
    destruct (String.eqb_spec k k') as [->|Hne]; simpl; [exact H|].
    constructor; [|apply IH; exact Hnd].
    intro Hin. destruct (rec_set_keys _ _ _ _ Hin) as [E|E]; [congruence|contradiction].
Qed.

Lemma rec_set_forall {X} (P : string -> list X -> Prop) k v r :
  Forall (fun e => P (fst e) (snd e)) r -> P k v -> Forall (fun e => P (fst e) (snd e)) (rec_set k v r).
Proof.
  induction r as [|[k' v'] r IH]; simpl; intros H Hk.
  - repeat constructor. exact Hk.
  - inversion H; subst. destruct (String.eqb_spec k k') as [->|Hne].
    + constructor; assumption.
    + constructor; [assumption|]. apply IH; assumption.
Qed.

Lemma rec_get_forall {X} (P : string -> list X -> Prop) k v r :
  Forall (fun e => P (fst e) (snd e)) r -> rec_get k r = Some v -> P k v.
Proof.
  induction r as [|[k' v'] r IH]; simpl; intros H E; [discriminate|].
  inversion H; subst. destruct (String.eqb_spec k k') as [->|Hne].
  - injection E as <-. assumption.
  - apply IH; assumption.
Qed.

Lemma processTx_WF env m st tx : StoreWF st -> StoreWF (processTx env m st tx).
Proof.
  intros [Hk Ha]. unfold processTx.
  set (asset := toUpperCase (tx_asset tx)).
  assert (Forall (fun l => lot_asset l = asset)
            (match rec_get asset (st_lotsByAsset st) with Some l => l | None => [] end)) as Hold.
  { destruct (rec_get asset (st_lotsByAsset st)) as [v|] eqn:E; [|constructor].
    exact (rec_get_forall (fun k v => Forall (fun l => lot_asset l = k) v) _ _ _ Ha E). }
  destruct (tx_type tx); simpl; try (split; assumption).
  1, 3, 4:
    split; [apply rec_set_nodup; exact Hk|];
    apply (rec_set_forall (fun k v => Forall (fun l => lot_asset l = k) v)); [exact Ha|];
    apply Forall_app; split; [exact Hold|]; repeat constructor.
  destruct (rec_get asset (st_lotsByAsset st)) as [lots|] eqn:E; simpl; [|split; assumption].
  split; [apply rec_set_nodup; exact Hk|].
  apply (rec_set_forall (fun k v => Forall (fun l => lot_asset l = k) v)); [exact Ha|].
  pose proof (consumeLots_fields lot_asset (getLotsForMethod lots m)
                (mkLoop lots (tx_amount tx) 0 []) keeps_lot_asset) as Hm.
  simpl in Hm. rewrite Forall_forall in Hold |- *. intros l Hl.
  assert (In (lot_asset l) (map lot_asset lots)) as Hin by (rewrite <- Hm; apply in_map; exact Hl).
  apply in_map_iff in Hin as [l' [Hl' Hin]]. rewrite <- Hl'. apply Hold. exact Hin.
Qed.

Lemma run_WF env m txs st : StoreWF st -> StoreWF (fold_left (processTx env m) txs st).
Proof.
  revert st. induction txs as [|tx txs IH]; intros st H; simpl; [exact H|].
  apply IH, processTx_WF, H.
Qed.

Lemma filter_asset_absent A (r : list (string * list CostBasisLot)) :
  ~ In A (map fst r) -> Forall (fun e => Forall (fun l => lot_asset l = fst e) (snd e)) r ->
  filter (fun l => String.eqb (lot_asset l) A) (concat (map snd r)) = [].
Proof.
  induction r as [|[k v] r IH]; simpl; intros Hn Ha; [reflexivity|].
  inversion Ha as [|? ? Hv Hr]; subst. rewrite filter_app, IH by tauto.
  rewrite app_nil_r. simpl in Hv. clear IH Hr Ha.
  induction Hv as [|l v Hl _ IHv]; simpl; [reflexivity|].
  rewrite Hl. destruct (String.eqb_spec k A) as [->|_]; [|exact IHv].
  exfalso; apply Hn; left; reflexivity.
Qed.

Lemma filter_asset_lotsOf A st :
  StoreWF st -> filter (fun l => String.eqb (lot_asset l) A) (allLots st) = lotsOf A st.
Proof.
  unfold allLots, lotsOf. intros [Hk Ha]. induction (st_lotsByAsset st) as [|[k v] r IH];
    simpl; [reflexivity|].
  inversion Hk as [|? ? Hni Hnd]; subst. inversion Ha as [|? ? Hv Hr]; subst. simpl in *.
  rewrite filter_app. destruct (String.eqb_spec A k) as [->|Hne].
  - rewrite filter_asset_absent by assumption. rewrite app_nil_r.
    clear - Hv. induction Hv as [|l v Hl _ IHv]; simpl; [reflexivity|].
    rewrite Hl, String.eqb_refl, IHv. reflexivity.
  - rewrite IH by assumption. clear - Hv Hne.
    induction Hv as [|l v Hl _ IHv]; simpl; [reflexivity|].
    rewrite Hl. destruct (String.eqb_spec k A) as [->|_]; [congruence|exact IHv].
Qed.

(** *** Conservation of amounts over a run *)

Lemma acquired_app A pre tx :
  acquiredAmount A (pre ++ [tx]) ==
  acquiredAmount A pre + (if ofAsset A tx && isAcquisition (tx_type tx) then tx_amount tx else 0).
Proof.
  unfold acquiredAmount. rewrite filter_app, map_app, sumQ_app. simpl.
  destruct (ofAsset A tx && isAcquisition (tx_type tx)); simpl; lra.
Qed.

Lemma disposed_app A pre tx :
  disposedAmount A (pre ++ [tx]) ==
  disposedAmount A pre + (if ofAsset A tx && isSale (tx_type tx) then tx_amount tx else 0).
Proof.
  unfold disposedAmount. rewrite filter_app, map_app, sumQ_app. simpl.
  destruct (ofAsset A tx && isSale (tx_type tx)); simpl; lra.
Qed.

Lemma sumRem_ordered lots m :
  sumRem (lotsAt lots (getLotsForMethod lots m)) == sumRem (filter isAvailable lots).
Proof. unfold sumRem. apply sumQ_perm, Permutation_map, getLotsForMethod_perm. Qed.

(** A sale covered by the lots of its asset removes exactly its amount. *)
Lemma sale_covered m lots amt c u :
  NoDup (map lot_id lots) -> Forall (fun l => 0 <= remainingAmount l) lots ->
  0 <= amt -> amt <= sumRem lots ->
  let r := consumeLots (getLotsForMethod lots m) (mkLoop lots amt c u) in
  sumRem (lp_lots r) == sumRem lots - amt /\
  Forall (fun l => 0 <= remainingAmount l) (lp_lots r).
Proof.
  intros Hnd Hnn H0 Hle r. subst r. rewrite consumeLots_ref by exact Hnd.
  set (o := getLotsForMethod lots m).
  pose proof (consumeRef_sum o (mkLoop lots amt c u)) as HS. simpl in HS.
  split; [|apply consumeRef_nonneg; exact Hnn].
  destruct (Qlt_le_dec 0 amt) as [Hp|Hz].
  - pose proof (consumeRef_cover o (mkLoop lots amt c u) (getLotsForMethod_ready lots m amt c u)) as Hc.
    simpl in Hc. pose proof (sumRem_ordered lots m) as Ho. pose proof (sumRem_available lots Hnn) as Ha.
    fold o in Ho. specialize (Hc Hp ltac:(lra)). lra.
  - rewrite consumeRef_stop in HS |- * by (simpl; lra). simpl in HS |- *. lra.
Qed.

Lemma step_conservation A env m st tx pre :
  StoreWF st -> NoDup (map lot_id (allLots st)) -> 0 <= tx_amount tx ->
  disposedAmount A (pre ++ [tx]) <= acquiredAmount A (pre ++ [tx]) ->
  sumRem (lotsOf A st) == acquiredAmount A pre - disposedAmount A pre ->
  Forall (fun l => 0 <= remainingAmount l) (lotsOf A st) ->
  sumRem (lotsOf A (processTx env m st tx)) ==
    acquiredAmount A (pre ++ [tx]) - disposedAmount A (pre ++ [tx]) /\
  Forall (fun l => 0 <= remainingAmount l) (lotsOf A (processTx env m st tx)).
Proof.
  intros HWF Hnd Ham Hover Hsum Hnn.
  rewrite acquired_app, disposed_app in *.
  pose proof (lotsOf_nodup A st Hnd) as HndA.
  unfold processTx, lotsOf in *. unfold ofAsset in *.
  set (asset := toUpperCase (tx_asset tx)) in *.
  destruct (String.eqb asset A) eqn:EA.
  - apply String.eqb_eq in EA. subst A.
    destruct (tx_type tx); simpl in *.
    1, 3, 5:
      rewrite rec_get_rec_set, String.eqb_refl;
      unfold sumRem in *; rewrite map_app, sumQ_app; simpl;
      split; [lra|apply Forall_app; split; [exact Hnn|repeat constructor; simpl; exact Ham]].
    + destruct (rec_get asset (st_lotsByAsset st)) as [lots|] eqn:E; simpl.
      * rewrite rec_get_rec_set, String.eqb_refl.
        destruct (sale_covered m lots (tx_amount tx) 0 [] HndA Hnn Ham ltac:(lra)) as [H1 H2].
        split; [lra|exact H2].
      * rewrite E. unfold sumRem in *. simpl in *. split; [lra|constructor].
    + split; [lra|exact Hnn].
  - rewrite !andb_false_l in *.
    destruct (tx_type tx); simpl in *.
    1, 3, 5: rewrite rec_get_rec_set, String.eqb_sym, EA; split; [lra|exact Hnn].
    + destruct (rec_get asset (st_lotsByAsset st)) as [lots|] eqn:E; simpl;
        [rewrite rec_get_rec_set, String.eqb_sym, EA|]; split; [lra|exact Hnn| lra|exact Hnn].
    + split; [lra|exact Hnn].
Qed.

Lemma run_conservation A env m txs st pre :
  StoreWF st ->
  NoDup (map lot_id (allLots (fold_left (processTx env m) txs st))) ->
  Forall (fun tx => 0 <= tx_amount tx) txs ->
  (forall n, (n <= List.length txs)%nat ->
     disposedAmount A (pre ++ firstn n txs) <= acquiredAmount A (pre ++ firstn n txs)) ->
  sumRem (lotsOf A st) == acquiredAmount A pre - disposedAmount A pre ->
  Forall (fun l => 0 <= remainingAmount l) (lotsOf A st) ->
  sumRem (lotsOf A (fold_left (processTx env m) txs st)) ==
    acquiredAmount A (pre ++ txs) - disposedAmount A (pre ++ txs) /\
  Forall (fun l => 0 <= remainingAmount l) (lotsOf A (fold_left (processTx env m) txs st)).
Proof.
  revert st pre. induction txs as [|tx txs IH]; intros st pre HWF Hnd Ham Hover Hsum Hnn; simpl.
  - rewrite app_nil_r. split; assumption.
  - inversion Ham as [|? ? Ham0 Ham1]; subst.
    destruct (step_conservation A env m st tx pre HWF (processTx_nodup env m st tx
               (run_nodup env m txs _ Hnd)) Ham0) as [H1 H2].
    + pose proof (Hover 1%nat ltac:(simpl; lia)) as H. simpl in H. exact H.
    + exact Hsum.
    + exact Hnn.
    + replace (pre ++ tx :: txs) with ((pre ++ [tx]) ++ txs) by (rewrite <- app_assoc; reflexivity).
      apply IH.
      * apply processTx_WF, HWF.
      * exact Hnd.
      * exact Ham1.
      * intros n Hn. rewrite <- app_assoc. apply (Hover (S n)). simpl. lia.
      * exact H1.
      * exact H2.
Qed.

Lemma processingOrder_perm txs : Permutation (processingOrder txs) (map normalizeTx txs).
Proof. unfold processingOrder. apply js_sort_perm. Qed.

Lemma amount_normalize A (f : TxType -> bool) txs :
  sumQ (map tx_amount (filter (fun tx => ofAsset A tx && f (tx_type tx)) (map normalizeTx txs))) ==
  sumQ (map tx_amount (filter (fun tx => ofAsset A tx && f (tx_type tx)) txs)).
Proof.
  induction txs as [|tx r IH]; cbn [map filter]; [reflexivity|].
  change (ofAsset A (normalizeTx tx) && f (tx_type (normalizeTx tx)))
    with (ofAsset A tx && f (tx_type tx)).
  destruct (ofAsset A tx && f (tx_type tx)); [|exact IH].
  unfold sumQ in *. cbn [map fold_right]. change (tx_amount (normalizeTx tx)) with (tx_amount tx).
  rewrite IH. reflexivity.
Qed.

Lemma acquired_processingOrder A txs :
  acquiredAmount A (processingOrder txs) == acquiredAmount A txs.
Proof.
  unfold acquiredAmount. rewrite <- (amount_normalize A isAcquisition txs).
  apply sumQ_perm, Permutation_map, filter_perm, processingOrder_perm.
Qed.

Lemma disposed_processingOrder A txs :
  disposedAmount A (processingOrder txs) == disposedAmount A txs.
Proof.
  unfold disposedAmount. rewrite <- (amount_normalize A isSale txs).
  apply sumQ_perm, Permutation_map, filter_perm, processingOrder_perm.
Qed.

Lemma processingOrder_nonneg txs :
  forallb (fun tx => qle 0 (tx_amount tx)) txs = true ->
  Forall (fun tx => 0 <= tx_amount tx) (processingOrder txs).
Proof.
  intro H. apply (Permutation_Forall (Permutation_sym (processingOrder_perm txs))).
  apply Forall_map, Forall_forall. intros tx Hin. simpl.
  rewrite forallb_forall in H. apply qle_true, H, Hin.
Qed.

Lemma noOversell_spec A ord :
  noOversell A ord = true ->
  forall n, (n <= List.length ord)%nat ->
    disposedAmount A ([] ++ firstn n ord) <= acquiredAmount A ([] ++ firstn n ord).
Proof.
  unfold noOversell. rewrite forallb_forall. intros H n Hn. simpl.
  apply qle_true, H, in_seq. lia.
Qed.

Lemma initState_WF : StoreWF initState.
Proof. split; constructor. Qed.

(** C2 (amended): for every asset [A], when the generated lot ids are distinct,
    every transaction amount is non-negative and no prefix of the processing
    order disposes of more [A] than it acquired, the remaining amounts of the
    returned [A] lots add up to the [A] acquired minus the [A] disposed, and
    none of them is negative. *)
Theorem lot_conservation env m txs A :
  distinctb (map lot_id (cb_lots (calculateCostBasis env m txs))) = true ->
  forallb (fun tx => qle 0 (tx_amount tx)) txs = true ->
  noOversell A (processingOrder txs) = true ->
  let lotsA := filter (fun l => String.eqb (lot_asset l) A) (cb_lots (calculateCostBasis env m txs)) in
  sumRem lotsA == acquiredAmount A txs - disposedAmount A txs /\
  Forall (fun l => 0 <= remainingAmount l) lotsA.
Proof.
  intros Hd Ham Hno lotsA. subst lotsA.
  unfold calculateCostBasis, finish. cbn [cb_lots].
  change (concat (map snd (st_lotsByAsset ?s))) with (allLots s).
  change (concat (map snd (st_lotsByAsset ?s))) with (allLots s) in Hd.
  apply distinctb_NoDup in Hd.
  rewrite filter_asset_lotsOf by (apply run_WF, initState_WF).
  destruct (run_conservation A env m (processingOrder txs) initState []
              initState_WF Hd (processingOrder_nonneg txs Ham) (noOversell_spec A _ Hno))
    as [H1 H2].
  - vm_compute. reflexivity.
  - constructor.
  - rewrite app_nil_l, acquired_processingOrder, disposed_processingOrder in H1.
    split; assumption.
Qed.

Lemma combine_map_r {A B C} (f : B -> C) (l : list A) (l' : list B) :
  combine l (map f l') = map (fun p => (fst p, f (snd p))) (combine l l').
Proof.
  revert l'. induction l as [|x l IH]; intros [|y l']; simpl; try reflexivity.
  rewrite IH. reflexivity.
Qed.

Lemma filter_map_comm {A B} (p : B -> bool) (q : A -> bool) (g : A -> B) l :
  (forall x, p (g x) = q x) -> filter p (map g l) = map g (filter q l).
Proof.
  intro H. induction l as [|x l IH]; simpl; [reflexivity|].
  rewrite H. destruct (q x); simpl; rewrite IH; reflexivity.
Qed.

Lemma js_sort_map {A B} (cmp : B -> B -> Q) (cmp' : A -> A -> Q) (g : A -> B) l :
  (forall x y, cmp (g x) (g y) = cmp' x y) -> js_sort cmp (map g l) = map g (js_sort cmp' l).
Proof.
  intro H. induction l as [|x l IH]; simpl; [reflexivity|].
  rewrite IH. clear IH. induction (js_sort cmp' l) as [|y r IH']; simpl; [reflexivity|].
  rewrite H. destruct (qle (cmp' x y) 0); simpl; [reflexivity|]. rewrite IH'. reflexivity.
Qed.

Lemma getLotsForMethod_erase lots m :
  getLotsForMethod (map eraseLot lots) m = getLotsForMethod lots m.
Proof.
  unfold getLotsForMethod. rewrite length_map, combine_map_r.
  rewrite (filter_map_comm _ (fun p => qlt 0 (remainingAmount (snd p)))) by reflexivity.
  rewrite (js_sort_map _ (fun a b => methodCmp m (snd a) (snd b))).
  - rewrite map_map. reflexivity.
  - intros [i x] [j y]. destruct m; reflexivity.
Qed.

Lemma update_at_map {A} i (f : A -> A) (g : A -> A) l :
  (forall x, f (g x) = g (f x)) -> update_at i f (map g l) = map g (update_at i f l).
Proof.
  intro H. revert i. induction l as [|x l IH]; intros [|i]; simpl; try reflexivity.
  - rewrite H. reflexivity.
  - rewrite IH. reflexivity.
Qed.

Lemma consumeRef_erase o s : eraseLoop (consumeRef o s) = consumeRef o (eraseLoop s).
Proof.
  revert s. induction o as [|i rest IH]; intro s; simpl; [reflexivity|].
  destruct (qle (lp_remainingToSell s) 0); [reflexivity|].
  rewrite nth_error_map. destruct (nth_error (lp_lots s) i) as [lot|]; simpl; [|apply IH].
  destruct (qle (remainingAmount lot) 0); [apply IH|].
  rewrite IH. unfold eraseLoop at 1. cbn [lp_lots lp_remainingToSell lp_totalCostBasis lp_lotsUsed].
  rewrite map_app, update_at_map by reflexivity. reflexivity.
Qed.

Lemma sellFromLots_erase m lots tx :
  NoDup (map lot_id lots) ->
  map eraseLot (fst (sellFromLots m lots tx)) = fst (sellErased m (map eraseLot lots) tx) /\
  eraseSale (snd (sellFromLots m lots tx)) = snd (sellErased m (map eraseLot lots) tx).
Proof.
  intro Hnd. unfold sellFromLots, sellErased. rewrite consumeLots_ref by exact Hnd.
  rewrite getLotsForMethod_erase.
  change (mkLoop (map eraseLot lots) (tx_amount tx) 0 [])
    with (eraseLoop (mkLoop lots (tx_amount tx) 0 [])).
  rewrite <- consumeRef_erase. split; reflexivity.
Qed.

Lemma rec_get_erase k r :
  rec_get k (map eraseEntry r) = option_map (map eraseLot) (rec_get k r).
Proof.
  induction r as [|[k' v] r IH]; simpl; [reflexivity|].
  destruct (String.eqb k k'); [reflexivity|exact IH].
Qed.

Lemma rec_set_erase k v r :
  map eraseEntry (rec_set k v r) = rec_set k (map eraseLot v) (map eraseEntry r).
Proof.
  induction r as [|[k' v'] r IH]; simpl; [reflexivity|].
  destruct (String.eqb k k'); simpl; [reflexivity|]. rewrite IH. reflexivity.
Qed.

Lemma processTx_erase env env' m st st' tx :
  NoDup (map lot_id (allLots st)) -> NoDup (map lot_id (allLots st')) ->
  eraseState st = eraseState st' ->
  eraseState (processTx env m st tx) = eraseState (processTx env' m st' tx).
Proof.
  intros H1 H2 E.
  assert (EL := f_equal st_lotsByAsset E). assert (ES := f_equal st_sales E).
  assert (EG := f_equal st_totalGains E). assert (EX := f_equal st_totalLosses E).
  assert (EC := f_equal st_created E). cbn in EL, ES, EG, EX, EC.
  pose proof (lotsOf_nodup (toUpperCase (tx_asset tx)) st H1) as N1.
  pose proof (lotsOf_nodup (toUpperCase (tx_asset tx)) st' H2) as N2.
  unfold lotsOf in N1, N2. unfold processTx.
  set (asset := toUpperCase (tx_asset tx)) in *.
  assert (Hget : option_map (map eraseLot) (rec_get asset (st_lotsByAsset st)) =
                 option_map (map eraseLot) (rec_get asset (st_lotsByAsset st'))).
  { rewrite <- !rec_get_erase, EL. reflexivity. }
  set (lots := match rec_get asset (st_lotsByAsset st) with Some l => l | None => [] end) in *.
  set (lots' := match rec_get asset (st_lotsByAsset st') with Some l => l | None => [] end) in *.
  assert (Hlots : map eraseLot lots = map eraseLot lots').
  { subst lots lots'. destruct (rec_get asset (st_lotsByAsset st)), (rec_get asset (st_lotsByAsset st'));
      simpl in Hget; try discriminate; [injection Hget; auto|reflexivity]. }
  destruct (tx_type tx).
  4: exact E.
  2: { destruct (sellFromLots m lots tx) as [l1 s1] eqn:F1.
       destruct (sellFromLots m lots' tx) as [l2 s2] eqn:F2.
       destruct (sellFromLots_erase m lots tx N1) as [A1 B1].
       destruct (sellFromLots_erase m lots' tx N2) as [A2 B2].
       rewrite F1 in A1, B1. rewrite F2 in A2, B2. cbn [fst snd] in A1, B1, A2, B2.
       rewrite <- Hlots in A2, B2. rewrite <- A2 in A1. rewrite <- B2 in B1.
       assert (Eg : gainLoss s1 = gainLoss s2).
       { change (gainLoss (eraseSale s1) = gainLoss (eraseSale s2)). rewrite B1. reflexivity. }
       unfold eraseState. cbn [st_lotsByAsset st_sales st_totalGains st_totalLosses st_created].
       rewrite !map_app. cbn [map]. rewrite B1, ES, Eg, EG, EX, EC. f_equal.
       destruct (rec_get asset (st_lotsByAsset st)), (rec_get asset (st_lotsByAsset st'));
         simpl in Hget; try discriminate.
       - rewrite !rec_set_erase, A1, EL. reflexivity.
       - exact EL. }
  all: unfold eraseState; cbn [st_lotsByAsset st_sales st_totalGains st_totalLosses st_created];
       rewrite !rec_set_erase, !map_app, Hlots, EL, ES, EG, EX, EC; reflexivity.
Qed.

Lemma run_erase env env' m txs st st' :
  NoDup (map lot_id (allLots (fold_left (processTx env m) txs st))) ->
  NoDup (map lot_id (allLots (fold_left (processTx env' m) txs st'))) ->
  eraseState st = eraseState st' ->
  eraseState (fold_left (processTx env m) txs st) = eraseState (fold_left (processTx env' m) txs st').
Proof.
  revert st st'. induction txs as [|tx txs IH]; intros st st' H1 H2 E; simpl in *; [exact E|].
  apply IH; [exact H1|exact H2|].
  apply processTx_erase; [apply (processTx_nodup env m st tx), (run_nodup env m txs _ H1)
                         |apply (processTx_nodup env' m st' tx), (run_nodup env' m txs _ H2)|exact E].
Qed.

Lemma reduce_sum_erase g l :
  (forall x, g (eraseLot x) = g x) -> reduce_sum g (map eraseLot l) = reduce_sum g l.
Proof.
  intro H. unfold reduce_sum. generalize 0.
  induction l as [|x l IH]; intro a; simpl; [reflexivity|]. rewrite H. apply IH.
Qed.

Lemma unrealizedOf_erase e : unrealizedOf (eraseEntry e) = unrealizedOf e.
Proof.
  destruct e as [k v]. unfold eraseEntry, unrealizedOf. cbn [fst snd].
  rewrite (filter_map_comm _ (fun l => qlt 0 (remainingAmount l))) by reflexivity.
  rewrite !reduce_sum_erase by reflexivity. reflexivity.
Qed.

Lemma finish_erase st st' :
  eraseState st = eraseState st' -> eraseResult (finish st) = eraseResult (finish st').
Proof.
  intro E.
  assert (EL := f_equal st_lotsByAsset E). assert (ES := f_equal st_sales E).
  assert (EG := f_equal st_totalGains E). assert (EX := f_equal st_totalLosses E).
  cbn in EL, ES, EG, EX.
  assert (Hc : forall r, map eraseLot (concat (map snd r)) = concat (map snd (map eraseEntry r))).
  { induction r as [|e r IH]; simpl; [reflexivity|]. rewrite map_app, IH. reflexivity. }
  assert (Hu : forall r, flat_map unrealizedOf r = flat_map unrealizedOf (map eraseEntry r)).
  { induction r as [|e r IH]; cbn [map flat_map]; [reflexivity|].
    rewrite IH, unrealizedOf_erase. reflexivity. }
  unfold eraseResult, finish. cbn [cb_lots cb_sales cb_totalGains cb_totalLosses cb_netGain cb_unrealizedGains].
  rewrite !Hc, (Hu (st_lotsByAsset st)), (Hu (st_lotsByAsset st')), EL, ES, EG, EX. reflexivity.
Qed.

Lemma processTx_sell env m st tx :
  tx_type tx = sell ->
  st_sales (processTx env m st tx) =
  st_sales st ++ [snd (sellFromLots m (lotsOf (toUpperCase (tx_asset tx)) st) tx)].
Proof.
  intro Ht. unfold processTx, lotsOf. rewrite Ht.
  destruct (sellFromLots m _ tx) as [l s]. reflexivity.
Qed.

Lemma sumRem_lotsAt_available lots m :
  sumRem (lotsAt lots (getLotsForMethod lots m)) == sumRem (filter isAvailable lots).
Proof. apply sumQ_perm, Permutation_map, getLotsForMethod_perm. Qed.

Lemma sumCost_lotsAt_available lots m :
  sumCost (lotsAt lots (getLotsForMethod lots m)) == sumCost (filter isAvailable lots).
Proof. apply sumQ_perm, Permutation_map, getLotsForMethod_perm. Qed.

(** C1: a sale processed by [calculateCostBasis] visits the available lots
    of its asset (those with [remainingAmount > 0]) in the order of the method:
    oldest first for FIFO, newest first for LIFO, highest cost per unit first
    for HIFO; the lots it uses are, in order, a prefix of that ordering.
    On three ETH lots costing 30, 10 and 20 bought in that order, a sale of
    two units consumes the lots costing [30; 10] (FIFO), [20; 10] (LIFO)
    and [30; 20] (HIFO). *)
Theorem consumption_order :
  (forall env m st tx,
     tx_type tx = sell ->
     distinctb (map lot_id (lotsOf (toUpperCase (tx_asset tx)) st)) = true ->
     let lots := lotsOf (toUpperCase (tx_asset tx)) st in
     let ordered := lotsAt lots (getLotsForMethod lots m) in
     exists sale,
       st_sales (processTx env m st tx) = st_sales st ++ [sale] /\
       Permutation ordered (filter isAvailable lots) /\
       Sorted (methodOrder m) ordered /\
       exists k, map (fun u => (lotId u, used_costPerUnit u)) (lotsUsed sale) =
                 firstn k (map (fun l => (lot_id l, costPerUnit l)) ordered)) /\
  consumedCosts (calculateCostBasis env0 FIFO ethHistory) = [[30; 10]] /\
  consumedCosts (calculateCostBasis env0 LIFO ethHistory) = [[20; 10]] /\
  consumedCosts (calculateCostBasis env0 HIFO ethHistory) = [[30; 20]].
Proof.
  split; [|split; [|split]]; [|vm_compute; reflexivity ..].
  intros env m st tx Ht Hd lots ordered. subst lots ordered.
  eexists. split; [apply processTx_sell, Ht|].
  split; [apply getLotsForMethod_perm|]. split; [apply getLotsForMethod_sorted|].
  unfold sellFromLots. cbn [snd lotsUsed].
  rewrite consumeLots_ref by (apply distinctb_NoDup, Hd).
  destruct (consumeRef_prefix _ _
              (getLotsForMethod_ready (lotsOf (toUpperCase (tx_asset tx)) st) m (tx_amount tx) 0 []))
    as [k Hk].
  exists k. rewrite Hk. reflexivity.
Qed.

Lemma consumption_order_witness :
  tx_type (mkTx "0xd2" sell "ETH" 1 40 1700000400000%Z) = sell /\
  distinctb (map lot_id (lotsOf "ETH" (fold_left (processTx env0 HIFO) (firstn 3 ethHistory) initState))) = true /\
  exists sale,
    st_sales (processTx env0 HIFO (fold_left (processTx env0 HIFO) (firstn 3 ethHistory) initState)
                (mkTx "0xd2" sell "ETH" 1 40 1700000400000%Z)) =
    st_sales (fold_left (processTx env0 HIFO) (firstn 3 ethHistory) initState) ++ [sale].
Proof.
  split; [reflexivity|]. split; [vm_compute; reflexivity|].
  destruct (proj1 consumption_order env0 HIFO
              (fold_left (processTx env0 HIFO) (firstn 3 ethHistory) initState)
              (mkTx "0xd2" sell "ETH" 1 40 1700000400000%Z) eq_refl
              ltac:(vm_compute; reflexivity)) as [sale [H _]].
  exists sale. exact H.
Defined.

(** C5: when a sale asks for more than the available lots of its asset
    hold, every available lot is consumed entirely and the shortfall adds
    nothing: the sale's [costBasis] is the cost of those lots, equal to the
    sum of the costs it lists, and [gainLoss] is [proceeds] (the sale's
    [valueEur]) minus that cost. An incoming transfer of 1 SOL with
    [valueEur = 0] followed by its sale for 100 EUR realizes a gain of 100. *)
Theorem oversell_zero_basis :
  (forall env m st tx,
     tx_type tx = sell ->
     distinctb (map lot_id (lotsOf (toUpperCase (tx_asset tx)) st)) = true ->
     sumRem (filter isAvailable (lotsOf (toUpperCase (tx_asset tx)) st)) < tx_amount tx ->
     exists sale,
       st_sales (processTx env m st tx) = st_sales st ++ [sale] /\
       costBasis sale == sumCost (filter isAvailable (lotsOf (toUpperCase (tx_asset tx)) st)) /\
       costBasis sale == sumQ (map used_cost (lotsUsed sale)) /\
       proceeds sale = tx_valueEur tx /\
       gainLoss sale = proceeds sale - costBasis sale) /\
  map gainLoss (cb_sales (calculateCostBasis env0 FIFO solHistory)) = [100].
Proof.
  split; [|vm_compute; reflexivity].
  intros env m st tx Ht Hd Hlt.
  set (lots := lotsOf (toUpperCase (tx_asset tx)) st) in *.
  eexists. split; [apply processTx_sell, Ht|]. fold lots.
  unfold sellFromLots. cbn [snd costBasis lotsUsed proceeds gainLoss].
  apply distinctb_NoDup in Hd. rewrite consumeLots_ref by exact Hd.
  set (o := getLotsForMethod lots m).
  set (s0 := mkLoop lots (tx_amount tx) 0 []).
  pose proof (getLotsForMethod_ready lots m (tx_amount tx) 0 []) as HR. fold o s0 in HR.
  pose proof (sumRem_lotsAt_available lots m) as E1. pose proof (sumCost_lotsAt_available lots m) as E2.
  fold o in E1, E2.
  destruct (consumeRef_over o s0 HR) as [_ Hc]; [simpl; lra|].
  pose proof (consumeRef_cost o s0) as Hu. simpl in Hc, Hu.
  split; [lra|]. split; [lra|]. split; reflexivity.
Qed.

Lemma oversell_zero_basis_witness :
  tx_type (mkTx "0xb3" sell "SOL" 2 150 1700000200000%Z) = sell /\
  distinctb (map lot_id (lotsOf "SOL" (fold_left (processTx env0 FIFO) (firstn 1 solHistory) initState))) = true /\
  sumRem (filter isAvailable (lotsOf "SOL" (fold_left (processTx env0 FIFO) (firstn 1 solHistory) initState)))
    < 2 /\
  exists sale,
    st_sales (processTx env0 FIFO (fold_left (processTx env0 FIFO) (firstn 1 solHistory) initState)
                (mkTx "0xb3" sell "SOL" 2 150 1700000200000%Z)) =
    st_sales (fold_left (processTx env0 FIFO) (firstn 1 solHistory) initState) ++ [sale] /\
    costBasis sale == 0.
Proof.
  split; [reflexivity|]. split; [vm_compute; reflexivity|]. split; [vm_compute; reflexivity|].
  destruct (proj1 oversell_zero_basis env0 FIFO
              (fold_left (processTx env0 FIFO) (firstn 1 solHistory) initState)
              (mkTx "0xb3" sell "SOL" 2 150 1700000200000%Z) eq_refl
              ltac:(vm_compute; reflexivity) ltac:(vm_compute; reflexivity)) as [sale [H [Hc _]]].
  exists sale. split; [exact H|]. rewrite Hc. vm_compute. reflexivity.
Defined.

(** C4 (counterexample): the returned lots depend on [Date.now()] and
    [Math.random()]: two runs on the same history with the same method
    differ in their lot ids. *)
Lemma calculateCostBasis_not_pure :
  calculateCostBasis env0 FIFO ethHistory <> calculateCostBasis env1 FIFO ethHistory.
Proof.
  intro H. apply (f_equal (fun r => map lot_id (cb_lots r))) in H.
  vm_compute in H. discriminate H.
Qed.

(** C4 (amended): apart from the generated lot ids, [calculateCostBasis] is
    a function of the transactions and the method: any two runs whose lot ids
    are each distinct return the same result once the ids are erased. *)
Theorem calculateCostBasis_erased_deterministic env env' m txs :
  distinctb (map lot_id (cb_lots (calculateCostBasis env m txs))) = true ->
  distinctb (map lot_id (cb_lots (calculateCostBasis env' m txs))) = true ->
  eraseResult (calculateCostBasis env m txs) = eraseResult (calculateCostBasis env' m txs).
Proof.
  intros H1 H2. apply distinctb_NoDup in H1, H2.
  unfold calculateCostBasis in *. apply finish_erase, run_erase; [exact H1|exact H2|reflexivity].
Qed.

Lemma calculateCostBasis_erased_deterministic_witness :
  eraseResult (calculateCostBasis env0 HIFO ethHistory) =
  eraseResult (calculateCostBasis env1 HIFO ethHistory).
Proof.
  apply calculateCostBasis_erased_deterministic; vm_compute; reflexivity.
Defined.

(** C2 (counterexample): amounts are unconstrained numbers; a purchase of
    [-1] BTC, with no sale at all, leaves a lot whose [remainingAmount] is
    negative. *)
Lemma negative_lot :
  cb_sales (calculateCostBasis env0 FIFO negativeBuy) = [] /\
  map remainingAmount (cb_lots (calculateCostBasis env0 FIFO negativeBuy)) = [-1].
Proof. split; vm_compute; reflexivity. Qed.

Lemma lot_conservation_witness :
  let r := calculateCostBasis env0 LIFO ethHistory in
  sumRem (filter (fun l => String.eqb (lot_asset l) "ETH") (cb_lots r)) ==
    acquiredAmount "ETH" ethHistory - disposedAmount "ETH" ethHistory.
Proof.
  exact (proj1 (lot_conservation env0 LIFO ethHistory "ETH"
                  ltac:(vm_compute; reflexivity) ltac:(vm_compute; reflexivity)
                  ltac:(vm_compute; reflexivity))).
Defined.

Lemma processTx_totals env m st tx :
  0 <= st_totalGains st -> 0 <= st_totalLosses st ->
  0 <= st_totalGains (processTx env m st tx) /\ 0 <= st_totalLosses (processTx env m st tx).
Proof.
  intros Hg Hl. unfold processTx.
  destruct (tx_type tx); cbn [st_totalGains st_totalLosses]; try (split; assumption).
  destruct (sellFromLots m _ tx) as [l s]. cbn [st_totalGains st_totalLosses].
  destruct (qlt 0 (gainLoss s)) eqn:E; qbool.
  - split; lra.
  - pose proof (Qabs_nonneg (gainLoss s)). split; lra.
Qed.

Lemma run_totals env m txs st :
  0 <= st_totalGains st -> 0 <= st_totalLosses st ->
  0 <= st_totalGains (fold_left (processTx env m) txs st) /\
  0 <= st_totalLosses (fold_left (processTx env m) txs st).
Proof.
  revert st. induction txs as [|tx txs IH]; intros st Hg Hl; simpl; [split; assumption|].
  destruct (processTx_totals env m st tx Hg Hl). apply IH; assumption.
Qed.

Lemma reduce_sum_nonneg {A} (g : A -> Q) l : (forall x, 0 <= g x) -> 0 <= reduce_sum g l.
Proof.
  intro H. unfold reduce_sum.
  assert (G : forall a, 0 <= a -> 0 <= fold_left (fun s x => s + g x) l a).
  { induction l as [|x l IH]; intros a Ha; simpl; [exact Ha|].
    apply IH. specialize (H x). lra. }
  apply G. lra.
Qed.

Lemma filter_idem {A} (f : A -> bool) l : filter f (filter f l) = filter f l.
Proof.
  induction l as [|x l IH]; simpl; [reflexivity|].
  destruct (f x) eqn:E; simpl; [rewrite E, IH|]; congruence.
Qed.

(** C9: the totals of [calculateCostBasis] and of [filterTaxResultsByYear]
    are non-negative and the net gain is gains minus losses. *)
Theorem totals_consistent :
  (forall env m txs,
     let r := calculateCostBasis env m txs in
     0 <= cb_totalGains r /\ 0 <= cb_totalLosses r /\
     cb_netGain r = cb_totalGains r - cb_totalLosses r) /\
  (forall getFullYear r year,
     let t := filterTaxResultsByYear getFullYear r year in
     0 <= ty_totalGains t /\ 0 <= ty_totalLosses t /\
     ty_netGain t = ty_totalGains t - ty_totalLosses t).
Proof.
  split.
  - intros env m txs r. subst r. unfold calculateCostBasis, finish.
    cbn [cb_totalGains cb_totalLosses cb_netGain].
    destruct (run_totals env m (processingOrder txs) initState) as [Hg Hl]; simpl; try lra.
    split; [exact Hg|]. split; [exact Hl|reflexivity].
  - intros g r year t. subst t. unfold filterTaxResultsByYear, filterSales.
    cbn [ty_totalGains ty_totalLosses ty_netGain].
    split; [|split; [|reflexivity]]; apply reduce_sum_nonneg; intro s.
    + unfold js_max. destruct (qle 0 (gainLoss s)) eqn:E; qbool; lra.
    + apply Qabs_nonneg.
Qed.

(** C8: the year filter is idempotent on the events it selects: filtering
    a result whose sales are the taxable events of year [Y], again by year
    [Y], gives the same totals and the same taxable events as filtering
    once. *)
Theorem year_filter_idempotent getFullYear r year :
  filterTaxResultsByYear getFullYear
    (withSales r (taxableEvents (filterTaxResultsByYear getFullYear r year))) year =
  filterTaxResultsByYear getFullYear r year.
Proof.
  unfold filterTaxResultsByYear, filterSales. cbn [cb_sales withSales taxableEvents].
  rewrite filter_idem. reflexivity.
Qed.

Lemma unrealized_run_other p a ug acc :
  ~ In a (map fst ug) ->
  rec_get a (byAsset (fold_left (unrealizedStep p) ug acc)) = rec_get a (byAsset acc).
Proof.
  revert acc. induction ug as [|[k d] ug IH]; intros acc Hn; simpl; [reflexivity|].
  simpl in Hn. rewrite IH by tauto. cbn [byAsset]. rewrite rec_get_rec_set.
  destruct (String.eqb_spec a k); [subst; tauto|reflexivity].
Qed.

Lemma unrealized_run_get p a d ug acc :
  NoDup (map fst ug) -> In (a, d) ug ->
  rec_get a (byAsset (fold_left (unrealizedStep p) ug acc)) = Some (assetUnrealized p a d).
Proof.
  revert acc. induction ug as [|[k d'] ug IH]; intros acc Hnd Hin; [destruct Hin|].
  simpl in Hnd |- *. inversion Hnd as [|? ? Hk Hnd']; subst.
  destruct Hin as [E|Hin].
  - injection E as -> ->. rewrite unrealized_run_other by exact Hk. cbn [byAsset].
    rewrite rec_get_rec_set, String.eqb_refl. reflexivity.
  - apply IH; assumption.
Qed.

(** C6: for every entry [asset -> data] of the input, the entry reported for
    [asset] has the input's amount and cost basis and [currentValue =
    amount * price]; its [unrealizedGainLoss] is 0 when the cost basis is
    below 0.01, half of [currentValue] when [currentValue - costBasis] would
    exceed [currentValue], and [currentValue - costBasis] otherwise. *)
Theorem unrealized_clamp ug prices asset data :
  distinctb (map fst ug) = true ->
  In (asset, data) ug ->
  exists e,
    rec_get asset (byAsset (calculateUnrealizedGains ug prices)) = Some e /\
    ua_amount e = u_amount data /\ ua_costBasis e = u_costBasis data /\
    currentValue e = u_amount data * priceFor prices asset /\
    (u_costBasis data < 1 # 100 -> unrealizedGainLoss e = 0) /\
    (1 # 100 <= u_costBasis data -> currentValue e < currentValue e - u_costBasis data ->
       unrealizedGainLoss e = currentValue e * (1 # 2)) /\
    (1 # 100 <= u_costBasis data -> currentValue e - u_costBasis data <= currentValue e ->
       unrealizedGainLoss e = currentValue e - u_costBasis data).
Proof.
  intros Hd Hin. apply distinctb_NoDup in Hd.
  exists (assetUnrealized prices asset data). split.
  { unfold calculateUnrealizedGains. apply unrealized_run_get; assumption. }
  unfold assetUnrealized. cbn [ua_amount ua_costBasis currentValue unrealizedGainLoss].
  set (cv := u_amount data * priceFor prices asset). set (cb := u_costBasis data).
  split; [reflexivity|]. split; [reflexivity|]. split; [reflexivity|].
  destruct (Qeq_bool cb 0) eqn:E0; [apply Qeq_bool_iff in E0|apply Qeq_bool_neq in E0];
    destruct (qlt cb (1 # 100)) eqn:E1; qbool; cbn [orb];
    destruct (qlt cv (cv - cb)) eqn:E2; qbool;
    repeat split; intros; try reflexivity; try lra.
Qed.

Lemma unrealized_clamp_witness :
  exists e,
    rec_get "SOL"%string (byAsset (calculateUnrealizedGains exampleUnrealized examplePrices)) = Some e /\
    unrealizedGainLoss e = 0.
Proof.
  destruct (unrealized_clamp exampleUnrealized examplePrices "SOL"%string (mkUnreal 3 (-30) (-10))
              ltac:(vm_compute; reflexivity) ltac:(simpl; tauto))
    as [e [He [_ [_ [_ [Hlow _]]]]]].
  exists e. split; [exact He|]. apply Hlow. vm_compute. reflexivity.
Defined.

(** C7 (counterexample): with the vault locked and nothing persisted under
    the encrypted key [crypta_wallets], the read returns the default value
    instead of failing with [VaultLockedError]. *)
Lemma locked_read_returns_default :
  Storage.getSecureData nat unit (fun _ => None) Storage.WALLETS 0%nat
    (Storage.mkStore nat unit [] [] None []) = Storage.Ok 0%nat.
Proof. reflexivity. Qed.

(** C7 (amended): for a key of the encrypted set and no unlocked vault, a
    read fails with [VaultLockedError] exactly when a non-empty value is
    persisted under the key; otherwise it returns the default value. *)
Theorem locked_read Val UnlockedVault JSON_parse key defaultValue s :
  Storage.isEncryptedKey key = true ->
  Storage.vault Val UnlockedVault s = None ->
  Storage.getSecureData Val UnlockedVault JSON_parse key defaultValue s =
  if Storage.falsyRaw (Storage.getItem Val UnlockedVault key s) then Storage.Ok defaultValue
  else Storage.Err Storage.VaultLockedError.
Proof.
  intros Hk Hv. unfold Storage.getSecureData.
  destruct (Storage.falsyRaw _); [reflexivity|]. rewrite Hk, Hv. reflexivity.
Qed.

Lemma locked_read_witness :
  Storage.getSecureData nat unit (fun _ => None) Storage.TRANSACTIONS 0%nat
    (Storage.mkStore nat unit [(Storage.TRANSACTIONS, "ciphertext"%string)] [] None []) =
  Storage.Err Storage.VaultLockedError.
Proof.
  exact (locked_read nat unit (fun _ => None) Storage.TRANSACTIONS 0%nat
           (Storage.mkStore nat unit [(Storage.TRANSACTIONS, "ciphertext"%string)] [] None [])
           ltac:(reflexivity) ltac:(reflexivity)).
Defined.

(** C10: [importBackupData] on a missing backup or on one whose [v] is not
    1 throws [Error('Backup non supportato')] and leaves the whole store
    (persisted values, cache, vault, pending encryptions) as it was. *)
Theorem import_rejects_bad_version Val UnlockedVault JSON_stringify emptyArray DEFAULT_SETTINGS
    settingsSafeParse versionedSettings backup s :
  match backup with None => True | Some b => Storage.versionIsOne Val b = false end ->
  Storage.importBackupData Val UnlockedVault JSON_stringify emptyArray DEFAULT_SETTINGS
    settingsSafeParse versionedSettings backup s =
  (Storage.Err (Storage.PlainError "Backup non supportato"), s).
Proof.
  intro H. destruct backup as [b|]; [|reflexivity].
  unfold Storage.importBackupData. rewrite H. reflexivity.
Qed.

Lemma import_rejects_bad_version_witness :
  Storage.importBackupData nat unit (fun _ => EmptyString) 0%nat 0%nat (fun v => Some v) (fun v => v)
    (Some (Storage.mkBackup nat (Some 2) None None None None None false None None))
    (Storage.mkStore nat unit [(Storage.SETTINGS, "{}"%string)] [] None []) =
  (Storage.Err (Storage.PlainError "Backup non supportato"),
   Storage.mkStore nat unit [(Storage.SETTINGS, "{}"%string)] [] None []).
Proof.
  apply import_rejects_bad_version. vm_compute. reflexivity.
Defined.

(** ** Further properties of the cost-basis engine *)

Lemma find_index_some {A} (p : A -> bool) l j :
  find_index p l = Some j -> exists x, nth_error l j = Some x /\ p x = true.
Proof.
  revert j. induction l as [|y r IH]; intros j H; simpl in H; [discriminate|].
  destruct (p y) eqn:E.
  - injection H as <-. exists y. split; [reflexivity|exact E].
  - destruct (find_index p r) as [j'|] eqn:E'; simpl in H; [|discriminate].
    injection H as <-. apply IH. reflexivity.
Qed.

Lemma js_min_pos a b : 0 < a -> 0 < b -> 0 < js_min a b.
Proof. intros. unfold js_min. destruct (qle a b); assumption. Qed.

Lemma js_min_le_r a b : js_min a b <= b.
Proof. unfold js_min. destruct (qle a b) eqn:E; qbool; lra. Qed.

Lemma consumeLots_lotOK o s :
  Forall lotOK (lp_lots s) -> Forall lotOK (lp_lots (consumeLots o s)).
Proof.
  revert s. induction o as [|i rest IH]; intros s H; simpl; [exact H|].
  destruct (qle (lp_remainingToSell s) 0) eqn:Ets; [exact H|].
  destruct (nth_error (lp_lots s) i) as [lot|]; [|apply IH, H].
  destruct (qle (remainingAmount lot) 0) eqn:Er; [apply IH, H|].
  apply IH. cbn [lp_lots].
  destruct (find_index _ (lp_lots s)) as [j|] eqn:Ej; [|exact H].
  destruct (find_index_some _ _ _ Ej) as [x [Hx _]].
  apply (Forall_update_at _ _ _ _ x Hx); [|exact H].
  qbool. pose proof (js_min_pos _ _ Er Ets) as Hp.
  rewrite Forall_forall in H. specialize (H x (nth_error_In _ _ Hx)).
  unfold lotOK in *. cbn [remainingAmount lot_amount decRemaining]. lra.
Qed.

Lemma length_consumeLots o s : List.length (lp_lots (consumeLots o s)) = List.length (lp_lots s).
Proof.
  revert s. induction o as [|i rest IH]; intro s; simpl; [reflexivity|].
  destruct (qle (lp_remainingToSell s) 0); [reflexivity|].
  destruct (nth_error (lp_lots s) i) as [lot|]; [|apply IH].
  destruct (qle (remainingAmount lot) 0); [apply IH|].
  rewrite IH. cbn [lp_lots]. destruct (find_index _ _); [apply length_update_at|reflexivity].
Qed.

Lemma consumeLots_used o s :
  let r := consumeLots o s in
  (Forall usedOK (lp_lotsUsed s) -> Forall usedOK (lp_lotsUsed r)) /\
  lp_totalCostBasis r - sumQ (map used_cost (lp_lotsUsed r)) ==
    lp_totalCostBasis s - sumQ (map used_cost (lp_lotsUsed s)) /\
  lp_remainingToSell r + sumQ (map amountUsed (lp_lotsUsed r)) ==
    lp_remainingToSell s + sumQ (map amountUsed (lp_lotsUsed s)) /\
  (0 <= lp_remainingToSell s -> 0 <= lp_remainingToSell r) /\
  (lp_remainingToSell s <= 0 -> r = s).
Proof.
  revert s. induction o as [|i rest IH]; intro s; simpl.
  { repeat split; auto; reflexivity. }
  destruct (qle (lp_remainingToSell s) 0) eqn:Ets.
  { repeat split; auto; reflexivity. }
  assert (Hstop : lp_remainingToSell s <= 0 -> False) by (qbool; lra).
  destruct (nth_error (lp_lots s) i) as [lot|]; [|destruct (IH s) as (A1 & A2 & A3 & A4 & _);
    repeat split; auto; intro; exfalso; auto].
  destruct (qle (remainingAmount lot) 0) eqn:Er; [destruct (IH s) as (A1 & A2 & A3 & A4 & _);
    repeat split; auto; intro; exfalso; auto|].
  qbool.
  set (a := js_min (remainingAmount lot) (lp_remainingToSell s)).
  pose proof (js_min_pos _ _ Er Ets) as Hp. pose proof (js_min_le_r (remainingAmount lot) (lp_remainingToSell s)) as Hle.
  fold a in Hp, Hle.
  match goal with |- context [consumeLots rest ?s'] => destruct (IH s') as (A1 & A2 & A3 & A4 & _) end.
  cbn [lp_lotsUsed lp_totalCostBasis lp_remainingToSell] in A1, A2, A3, A4.
  rewrite !map_app, !sumQ_app in A2, A3. cbn [map sumQ fold_right used_cost amountUsed] in A2, A3.
  repeat split.
  - intro HU. apply A1. apply Forall_app. split; [exact HU|]. constructor; [|constructor].
    unfold usedOK. cbn. split; [exact Hp|reflexivity].
  - unfold sumQ in *. cbn [fold_right] in *. lra.
  - unfold sumQ in *. cbn [fold_right] in *. lra.
  - intro. apply A4. lra.
  - intro. exfalso. auto.
Qed.

Lemma sellFromLots_saleOK m lots tx : saleOK (snd (sellFromLots m lots tx)).
Proof.
  unfold sellFromLots. cbn [snd].
  destruct (consumeLots_used (getLotsForMethod lots m) (mkLoop lots (tx_amount tx) 0 []))
    as (A1 & A2 & A3 & A4 & A5).
  cbn [lp_lotsUsed lp_totalCostBasis lp_remainingToSell map sumQ fold_right] in *.
  unfold saleOK. cbn [costBasis gainLoss proceeds lotsUsed sale_transaction].
  split; [lra|]. split; [reflexivity|]. split; [apply A1; constructor|].
  unfold js_max. destruct (qle 0 (tx_amount tx)) eqn:E; qbool.
  - assert (0 <= lp_remainingToSell (consumeLots (getLotsForMethod lots m)
                                        (mkLoop lots (tx_amount tx) 0 []))) by (apply A4; lra).
    lra.
  - rewrite A5 by lra. cbn. lra.
Qed.

Lemma run_invariant (P : CBState -> Prop) env m txs st :
  (forall st tx, P st -> P (processTx env m st tx)) -> P st -> P (fold_left (processTx env m) txs st).
Proof.
  intro Hs. revert st. induction txs as [|tx txs IH]; intros st H; simpl; [exact H|].
  apply IH, Hs, H.
Qed.

Lemma Forall_concat_snd {X} (P : X -> Prop) (r : list (string * list X)) :
  Forall P (concat (map snd r)) <-> Forall (fun e => Forall P (snd e)) r.
Proof.
  induction r as [|[k v] r IH]; simpl; [split; constructor|].
  rewrite Forall_app, IH. split; [intros [H1 H2]; constructor; assumption|].
  intro H. inversion H; subst. split; assumption.
Qed.

Lemma processTx_lotOK env m st tx :
  Forall lotOK (allLots st) -> Forall lotOK (allLots (processTx env m st tx)).
Proof.
  unfold allLots. rewrite !Forall_concat_snd. intro H.
  assert (Hold : Forall lotOK (match rec_get (toUpperCase (tx_asset tx)) (st_lotsByAsset st)
                                with Some l => l | None => [] end)).
  { destruct (rec_get _ _) eqn:E; [|constructor].
    exact (rec_get_forall (fun _ v => Forall lotOK v) _ _ _ H E). }
  unfold processTx. destruct (tx_type tx); cbn [st_lotsByAsset]; try exact H.
  1,3,4: apply (rec_set_forall (fun _ v => Forall lotOK v)); [exact H|];
         apply Forall_app; split; [exact Hold|]; constructor; [unfold lotOK; cbn; lra|constructor].
  destruct (sellFromLots m _ tx) as [l s] eqn:E. cbn [st_lotsByAsset].
  destruct (rec_get _ _); [|exact H].
  apply (rec_set_forall (fun _ v => Forall lotOK v)); [exact H|].
  unfold sellFromLots in E. injection E as <- _. apply consumeLots_lotOK. exact Hold.
Qed.

Lemma processTx_saleOK env m st tx :
  Forall saleOK (st_sales st) -> Forall saleOK (st_sales (processTx env m st tx)).
Proof.
  intro H. unfold processTx. destruct (tx_type tx); cbn [st_sales]; try exact H.
  pose proof (sellFromLots_saleOK m (match rec_get (toUpperCase (tx_asset tx)) (st_lotsByAsset st)
                                       with Some l => l | None => [] end) tx) as Hs.
  destruct (sellFromLots m _ tx) as [l s]. cbn [st_sales]. apply Forall_app. split; [exact H|].
  constructor; [exact Hs|constructor].
Qed.

Lemma processTx_net env m st tx :
  st_totalGains st - st_totalLosses st == sumQ (map gainLoss (st_sales st)) ->
  st_totalGains (processTx env m st tx) - st_totalLosses (processTx env m st tx) ==
  sumQ (map gainLoss (st_sales (processTx env m st tx))).
Proof.
  intro H. unfold processTx. destruct (tx_type tx); cbn [st_sales st_totalGains st_totalLosses]; try exact H.
  destruct (sellFromLots m _ tx) as [l s]. cbn [st_sales st_totalGains st_totalLosses].
  rewrite map_app, sumQ_app. cbn [map sumQ fold_right].
  destruct (qlt 0 (gainLoss s)) eqn:E; qbool.
  - unfold sumQ in *. lra.
  - rewrite Qabs_neg by exact E. unfold sumQ in *. lra.
Qed.

Lemma processTx_counts env m st tx :
  List.length (st_sales (processTx env m st tx)) =
    (List.length (st_sales st) + if isSale (tx_type tx) then 1 else 0)%nat /\
  List.length (allLots (processTx env m st tx)) =
    (List.length (allLots st) + if isAcquisition (tx_type tx) then 1 else 0)%nat.
Proof.
  unfold processTx, allLots.
  set (old := match rec_get (toUpperCase (tx_asset tx)) (st_lotsByAsset st) with Some l => l | None => [] end).
  assert (HP : forall v, (List.length (concat (map snd (rec_set (toUpperCase (tx_asset tx)) v (st_lotsByAsset st))))
                         + List.length old = List.length v + List.length (concat (map snd (st_lotsByAsset st))))%nat).
  { intro v. rewrite <- !length_app. apply Permutation_length, concat_rec_set. }
  destruct (tx_type tx); cbn [st_sales st_lotsByAsset isSale isAcquisition].
  1,3,5: split; [lia|];
         match goal with |- context [rec_set _ (?o ++ [?lot]) _] => specialize (HP (o ++ [lot])) end;
         rewrite length_app in HP; cbn in HP; lia.
  - destruct (sellFromLots m old tx) as [l s] eqn:E. cbn [st_sales st_lotsByAsset].
    rewrite length_app. split; [cbn; lia|].
    unfold old in E |- *. destruct (rec_get _ _) as [v|]; [|lia].
    specialize (HP l). unfold sellFromLots in E. injection E as E _.
    assert (List.length l = List.length v) by (rewrite <- E; apply length_consumeLots).
    unfold old in HP. lia.
  - split; lia.
Qed.

Lemma processTx_saleTx env m st tx :
  Forall (fun s => tx_type (sale_transaction s) = sell /\ proceeds s = tx_valueEur (sale_transaction s))
    (st_sales st) ->
  Forall (fun s => tx_type (sale_transaction s) = sell /\ proceeds s = tx_valueEur (sale_transaction s))
    (st_sales (processTx env m st tx)).
Proof.
  intro H. unfold processTx. destruct (tx_type tx) eqn:Ht; cbn [st_sales]; try exact H.
  destruct (sellFromLots m _ tx) as [l s] eqn:E. cbn [st_sales]. apply Forall_app. split; [exact H|].
  constructor; [|constructor]. unfold sellFromLots in E. injection E as _ <-. cbn. split; auto.
Qed.

Lemma count_processingOrder (f : TxType -> bool) txs :
  List.length (filter (fun tx => f (tx_type tx)) (processingOrder txs)) =
  List.length (filter (fun tx => f (tx_type tx)) txs).
Proof.
  rewrite (Permutation_length (filter_perm _ _ _ (processingOrder_perm txs))).
  rewrite (filter_map_comm _ (fun tx => f (tx_type tx))) by reflexivity.
  apply length_map.
Qed.

Lemma run_counts env m txs st :
  List.length (st_sales (fold_left (processTx env m) txs st)) =
    (List.length (st_sales st) + List.length (filter (fun tx => isSale (tx_type tx)) txs))%nat /\
  List.length (allLots (fold_left (processTx env m) txs st)) =
    (List.length (allLots st) + List.length (filter (fun tx => isAcquisition (tx_type tx)) txs))%nat.
Proof.
  revert st. induction txs as [|tx txs IH]; intro st; simpl; [lia|].
  destruct (IH (processTx env m st tx)) as [H1 H2]. destruct (processTx_counts env m st tx) as [C1 C2].
  rewrite H1, H2, C1, C2.
  destruct (isSale (tx_type tx)), (isAcquisition (tx_type tx)); simpl; lia.
Qed.

(** Every sale record of [calculateCostBasis] comes from a [sell]
    transaction, its proceeds are that transaction's [valueEur], its
    [costBasis] is the sum of the costs of the lots it lists, its [gainLoss]
    is proceeds minus [costBasis], each listed lot contributes a positive
    amount at its own unit cost, and together they never exceed the amount
    sold (nothing when that amount is not positive). *)
Theorem sales_well_formed env m txs :
  Forall (fun s => saleOK s /\ tx_type (sale_transaction s) = sell /\
                   proceeds s = tx_valueEur (sale_transaction s))
    (cb_sales (calculateCostBasis env m txs)).
Proof.
  unfold calculateCostBasis, finish. cbn [cb_sales].
  assert (H1 : Forall saleOK (st_sales (fold_left (processTx env m) (processingOrder txs) initState)))
    by (apply (run_invariant (fun st => Forall saleOK (st_sales st))); [apply processTx_saleOK|constructor]).
  assert (H2 := run_invariant (fun st => Forall (fun s => tx_type (sale_transaction s) = sell /\
              proceeds s = tx_valueEur (sale_transaction s)) (st_sales st)) env m (processingOrder txs)
              initState (processTx_saleTx env m) ltac:(constructor)).
  cbn beta in H2. rewrite Forall_forall in H1, H2 |- *. intros s Hs.
  split; [apply H1, Hs|apply H2, Hs].
Qed.

(** A lot's [remainingAmount] never exceeds the amount it was created with:
    sales only ever decrease it. *)
Theorem lots_never_grow env m txs :
  Forall (fun l => remainingAmount l <= lot_amount l) (cb_lots (calculateCostBasis env m txs)).
Proof.
  unfold calculateCostBasis, finish. cbn [cb_lots].
  change (concat (map snd (st_lotsByAsset ?s))) with (allLots s).
  apply (run_invariant (fun st => Forall lotOK (allLots st))); [apply processTx_lotOK|constructor].
Qed.

(** The net gain of [calculateCostBasis] is the sum of the gains and losses
    of its sale records. *)
Theorem net_gain_is_sum env m txs :
  cb_netGain (calculateCostBasis env m txs) == sumQ (map gainLoss (cb_sales (calculateCostBasis env m txs))).
Proof.
  unfold calculateCostBasis, finish. cbn [cb_netGain cb_sales].
  apply (run_invariant (fun st => st_totalGains st - st_totalLosses st == sumQ (map gainLoss (st_sales st)))).
  - apply processTx_net.
  - cbn. reflexivity.
Qed.

(** [calculateCostBasis] returns one sale record per [sell] transaction and
    one lot per acquisition ([buy], [airdrop] or [transfer]); lots are never
    removed, even when used up, and stakes produce neither. *)
Theorem one_record_per_transaction env m txs :
  List.length (cb_sales (calculateCostBasis env m txs)) =
    List.length (filter (fun tx => isSale (tx_type tx)) txs) /\
  List.length (cb_lots (calculateCostBasis env m txs)) =
    List.length (filter (fun tx => isAcquisition (tx_type tx)) txs).
Proof.
  unfold calculateCostBasis, finish. cbn [cb_sales cb_lots].
  change (concat (map snd (st_lotsByAsset ?s))) with (allLots s).
  destruct (run_counts env m (processingOrder txs) initState) as [H1 H2].
  rewrite H1, H2, !count_processingOrder. split; reflexivity.
Qed.

(** [calculateCostBasis] processes the transactions as a reordering of the
    normalised ones, in non-decreasing order of normalised timestamp. *)
Theorem processing_order_sorted txs :
  Permutation (processingOrder txs) (map normalizeTx txs) /\
  Sorted (fun a b => (tx_timestamp a <= tx_timestamp b)%Z) (processingOrder txs).
Proof.
  split; [apply processingOrder_perm|]. unfold processingOrder. apply js_sort_sorted.
  - intros x y H. apply qle_true in H. change 0 with (inject_Z 0) in H.
    rewrite <- Zle_Qle in H. lia.
  - intros x y H. apply qle_false in H. change 0 with (inject_Z 0) in H.
    rewrite <- Zlt_Qlt in H. lia.
Qed.

Lemma js_insert_split {A} (cmp : A -> A -> Q) x l :
  exists a b, js_insert cmp x l = a ++ x :: b /\ a ++ b = l.
Proof.
  induction l as [|y ys IH]; simpl.
  - exists [], []. split; reflexivity.
  - destruct (qle (cmp x y) 0).
    + exists [], (y :: ys). split; reflexivity.
    + destruct IH as [a [b [E1 E2]]]. exists (y :: a), b. rewrite E1, <- E2. split; reflexivity.
Qed.

Lemma tsCmp_sorted l : Sorted (fun a b => (tx_timestamp a <= tx_timestamp b)%Z) (js_sort tsCmp l).
Proof.
  apply js_sort_sorted.
  - intros x y H. apply qle_true in H. unfold tsCmp in H. change 0 with (inject_Z 0) in H.
    rewrite <- Zle_Qle in H. lia.
  - intros x y H. apply qle_false in H. unfold tsCmp in H. change 0 with (inject_Z 0) in H.
    rewrite <- Zlt_Qlt in H. lia.
Qed.

Lemma js_insert_front x m :
  Forall (fun z => (tx_timestamp x <= tx_timestamp z)%Z) m -> js_insert tsCmp x m = x :: m.
Proof.
  intro H. destruct m as [|y m]; simpl; [reflexivity|]. inversion H as [|? ? Hy]; subst.
  replace (qle (tsCmp x y) 0) with true; [reflexivity|]. symmetry. apply qle_true.
  unfold tsCmp. change 0 with (inject_Z 0). rewrite <- Zle_Qle. lia.
Qed.

Lemma filter_js_insert (p : Transaction -> bool) x l :
  Sorted (fun a b => (tx_timestamp a <= tx_timestamp b)%Z) l ->
  filter p (js_insert tsCmp x l) = if p x then js_insert tsCmp x (filter p l) else filter p l.
Proof.
  induction l as [|y ys IH]; intro HS; simpl; [destruct (p x); reflexivity|].
  assert (HF : Forall (fun z => (tx_timestamp y <= tx_timestamp z)%Z) ys).
  { apply (Sorted_extends (R := fun a b : Transaction => (tx_timestamp a <= tx_timestamp b)%Z));
      [intros a b c; cbn beta; lia|exact HS]. }
  apply Sorted_inv in HS. destruct HS as [HS _].
  destruct (qle (tsCmp x y) 0) eqn:E.
  - apply qle_true in E. unfold tsCmp in E. change 0 with (inject_Z 0) in E.
    rewrite <- Zle_Qle in E. simpl.
    destruct (p x) eqn:Px; [|reflexivity]. symmetry. apply js_insert_front.
    assert (HF' : Forall (fun z => (tx_timestamp x <= tx_timestamp z)%Z) ys).
    { eapply Forall_impl; [|exact HF]. intros z Hz. cbn beta in *. lia. }
    rewrite Forall_forall in HF'. apply Forall_forall. intros z Hz.
    destruct (p y); [destruct Hz as [<-|Hz]; [cbn beta; lia|]|];
      apply filter_In in Hz; destruct Hz as [Hz _]; exact (HF' z Hz).
  - simpl. rewrite (IH HS). destruct (p x) eqn:Px, (p y) eqn:Py; simpl; rewrite ?E; reflexivity.
Qed.

Lemma filter_js_sort (p : Transaction -> bool) l :
  filter p (js_sort tsCmp l) = js_sort tsCmp (filter p l).
Proof.
  induction l as [|x l IH]; simpl; [reflexivity|].
  rewrite (filter_js_insert p x _ (tsCmp_sorted l)), IH.
  destruct (p x); reflexivity.
Qed.

Lemma fold_processTx_stakes env m l st :
  fold_left (processTx env m) l st = fold_left (processTx env m) (filter notStake l) st.
Proof.
  revert st. induction l as [|tx l IH]; intro st; simpl; [reflexivity|].
  unfold notStake at 1. destruct (tx_type tx) eqn:Et; simpl; rewrite IH; try reflexivity.
  f_equal. unfold processTx. rewrite Et. reflexivity.
Qed.

(** Stakes play no part in [calculateCostBasis]: for the same [Date.now()]
    and [Math.random()] readings at each lot creation, the result on a
    history is the result on the same history with every [stake]
    transaction removed, wherever the stakes stand. *)
Theorem stake_ignored env m txs :
  calculateCostBasis env m txs = calculateCostBasis env m (filter notStake txs).
Proof.
  unfold calculateCostBasis, processingOrder.
  rewrite fold_processTx_stakes. f_equal. f_equal. fold tsCmp.
  rewrite filter_js_sort. f_equal. apply filter_map_comm. intro x. reflexivity.
Qed.

Lemma reduce_sum_sumQ {A} (g : A -> Q) l : reduce_sum g l == sumQ (map g l).
Proof.
  unfold reduce_sum.
  assert (G : forall a, fold_left (fun s x => s + g x) l a == a + sumQ (map g l)).
  { induction l as [|x l IH]; intro a; simpl; [lra|]. rewrite IH. unfold sumQ. simpl. lra. }
  rewrite G. lra.
Qed.

Lemma sumQ_map_sub {A} (f g h : A -> Q) l :
  (forall x, f x - g x == h x) -> sumQ (map f l) - sumQ (map g l) == sumQ (map h l).
Proof.
  intro H. induction l as [|x l IH]; simpl; [reflexivity|].
  unfold sumQ in *. simpl. specialize (H x). lra.
Qed.

(** The net gain reported for a year by [filterTaxResultsByYear] is the sum
    of the gains and losses of the sales dated in that year, and its gains
    and losses are the sums of the positive parts and of the negative parts. *)
Theorem year_net_is_sum getFullYear r year :
  let t := filterTaxResultsByYear getFullYear r year in
  ty_netGain t == sumQ (map gainLoss (taxableEvents t)) /\
  ty_totalGains t == sumQ (map (fun s => js_max 0 (gainLoss s)) (taxableEvents t)) /\
  ty_totalLosses t == sumQ (map (fun s => Qabs (js_min 0 (gainLoss s))) (taxableEvents t)) /\
  Forall (fun s => getFullYear (tx_timestamp (sale_transaction s)) = year) (taxableEvents t).
Proof.
  intro t. subst t. unfold filterTaxResultsByYear, filterSales.
  cbn [ty_netGain ty_totalGains ty_totalLosses taxableEvents].
  rewrite !reduce_sum_sumQ. split; [|split; [reflexivity|split; [reflexivity|]]].
  - apply sumQ_map_sub. intro s. unfold js_max, js_min.
    destruct (qle 0 (gainLoss s)) eqn:E; qbool.
    + rewrite Qabs_pos by lra. lra.
    + rewrite Qabs_neg by lra. lra.
  - apply Forall_forall. intros s Hs. apply filter_In in Hs as [_ Hs]. apply Z.eqb_eq, Hs.
Qed.

Lemma assetUnrealized_gain p a d :
  unrealizedGainLoss (assetUnrealized p a d) =
  if qlt (u_costBasis d) (1 # 100) then 0
  else u_amount d * priceFor p a - u_costBasis d.
Proof.
  unfold assetUnrealized. cbn [unrealizedGainLoss].
  destruct (qlt (u_costBasis d) (1 # 100)) eqn:E1.
  - destruct (Qeq_bool _ 0); reflexivity.
  - qbool. destruct (Qeq_bool (u_costBasis d) 0) eqn:E0.
    + apply Qeq_bool_iff in E0. exfalso. lra.
    + cbn [orb]. destruct (qlt (u_costBasis d) (1 # 100)) eqn:E2; qbool; [lra|].
      destruct (qlt (u_amount d * priceFor p a) (u_amount d * priceFor p a - u_costBasis d)) eqn:E3;
        qbool; [lra|reflexivity].
Qed.

Lemma unrealized_run_entries p ug acc :
  Forall (fun e => unrealizedGainLoss (snd e) =
            if qlt (ua_costBasis (snd e)) (1 # 100) then 0
            else currentValue (snd e) - ua_costBasis (snd e)) (byAsset acc) ->
  Forall (fun e => unrealizedGainLoss (snd e) =
            if qlt (ua_costBasis (snd e)) (1 # 100) then 0
            else currentValue (snd e) - ua_costBasis (snd e))
    (byAsset (fold_left (unrealizedStep p) ug acc)).
Proof.
  revert acc. induction ug as [|[a d] ug IH]; intros acc H; simpl; [exact H|].
  apply IH. cbn [byAsset]. remember (byAsset acc) as r eqn:Er. clear Er.
  induction r as [|[k v] r IHr]; simpl.
  - constructor; [|constructor]. cbn [snd]. rewrite assetUnrealized_gain. reflexivity.
  - inversion H as [|? ? Hv Hr]; subst. destruct (String.eqb a k).
    + constructor; [|exact Hr]. cbn [snd]. rewrite assetUnrealized_gain. reflexivity.
    + constructor; [exact Hv|apply IHr, Hr].
Qed.

(** The 50% cap of [calculateUnrealizedGains] never applies: a cost basis of
    at least 0.01 is positive, so [currentValue - costBasis] cannot exceed
    [currentValue]. Every reported [unrealizedGainLoss] is 0 when the cost
    basis is below 0.01, and exactly [currentValue - costBasis] otherwise. *)
Theorem unrealized_cap_unreachable ug prices asset e :
  rec_get asset (byAsset (calculateUnrealizedGains ug prices)) = Some e ->
  unrealizedGainLoss e =
  if qlt (ua_costBasis e) (1 # 100) then 0 else currentValue e - ua_costBasis e.
Proof.
  intro H. unfold calculateUnrealizedGains in H.
  pose proof (unrealized_run_entries prices ug (mkUnrealizedResult 0 0 []) ltac:(constructor)) as F.
  remember (byAsset (fold_left (unrealizedStep prices) ug (mkUnrealizedResult 0 0 []))) as r.
  clear Heqr. induction r as [|[k v] r IH]; simpl in H; [discriminate|].
  inversion F as [|? ? Hv Hr]; subst.
  destruct (String.eqb asset k); [injection H as <-; exact Hv|apply IH; assumption].
Qed.

Lemma unrealized_cap_unreachable_witness :
  exists e, rec_get "ETH"%string (byAsset (calculateUnrealizedGains exampleUnrealized examplePrices)) = Some e /\
            unrealizedGainLoss e = currentValue e - ua_costBasis e.
Proof.
  eexists. split; [vm_compute; reflexivity|].
  rewrite (unrealized_cap_unreachable exampleUnrealized examplePrices "ETH"%string _
             ltac:(vm_compute; reflexivity)).
  vm_compute. reflexivity.
Defined.

(** The totals of [calculateUnrealizedGains] are non-negative, and the
    total gain minus the total loss is the sum of the [unrealizedGainLoss]
    computed for each input entry. *)
Theorem unrealized_totals ug prices :
  let r := calculateUnrealizedGains ug prices in
  0 <= totalUnrealizedGain r /\ 0 <= totalUnrealizedLoss r /\
  totalUnrealizedGain r - totalUnrealizedLoss r ==
    sumQ (map (fun e => unrealizedGainLoss (assetUnrealized prices (fst e) (snd e))) ug).
Proof.
  intro r. subst r. unfold calculateUnrealizedGains.
  assert (G : forall acc, 0 <= totalUnrealizedGain acc -> 0 <= totalUnrealizedLoss acc ->
    let r := fold_left (unrealizedStep prices) ug acc in
    0 <= totalUnrealizedGain r /\ 0 <= totalUnrealizedLoss r /\
    totalUnrealizedGain r - totalUnrealizedLoss r ==
      totalUnrealizedGain acc - totalUnrealizedLoss acc +
      sumQ (map (fun e => unrealizedGainLoss (assetUnrealized prices (fst e) (snd e))) ug)).
  { induction ug as [|[a d] ug IH]; intros acc Hg Hl.
    - cbn. repeat split; try assumption. lra.
    - cbn [fold_left].
      set (F := fun e : string * Unrealized => unrealizedGainLoss (assetUnrealized prices (fst e) (snd e))) in *.
      set (acc' := unrealizedStep prices acc (a, d)).
      set (g := unrealizedGainLoss (assetUnrealized prices a d)).
      assert (Hs : sumQ (map F ((a, d) :: ug)) == g + sumQ (map F ug)) by reflexivity.
      assert (H' : (0 <= totalUnrealizedGain acc') /\ (0 <= totalUnrealizedLoss acc') /\
                   (totalUnrealizedGain acc' - totalUnrealizedLoss acc' ==
                   totalUnrealizedGain acc - totalUnrealizedLoss acc + g)).
      { subst acc'. cbn [unrealizedStep totalUnrealizedGain totalUnrealizedLoss]. fold g.
        destruct (qlt 0 g) eqn:E; qbool.
        - repeat split; lra.
        - pose proof (Qabs_nonneg g). rewrite Qabs_neg by lra. repeat split; lra. }
      destruct H' as (B1 & B2 & B3).
      destruct (IH acc' B1 B2) as (A1 & A2 & A3).
      repeat split; try assumption. rewrite Hs. lra. }
  destruct (G (mkUnrealizedResult 0 0 [])) as (A1 & A2 & A3); cbn; try lra.
  repeat split; try assumption. cbn in A3. lra.
Qed.

(** ** Further properties of the storage module *)

Lemma rec_get_rec_set_eq {V} k (v : V) r : rec_get k (rec_set k v r) = Some v.
Proof.
  induction r as [|[k' v'] r IH]; simpl.
  - rewrite String.eqb_refl. reflexivity.
  - destruct (String.eqb k k') eqn:E; simpl; rewrite E; [reflexivity|exact IH].
Qed.

Lemma rec_get_rec_set_neq {V} k k' (v : V) r :
  String.eqb k k' = false -> rec_get k (rec_set k' v r) = rec_get k r.
Proof.
  intro H. induction r as [|[k'' v'] r IH]; simpl.
  - rewrite H. reflexivity.
  - destruct (String.eqb k' k'') eqn:E; simpl.
    + apply String.eqb_eq in E. subst k''. rewrite H. reflexivity.
    + destruct (String.eqb k k''); [reflexivity|exact IH].
Qed.

Lemma rec_get_removed {V} k (r : list (string * V)) :
  rec_get k (filter (fun e => negb (String.eqb (fst e) k)) r) = None.
Proof.
  induction r as [|[k' v] r IH]; simpl; [reflexivity|].
  destruct (String.eqb k' k) eqn:E; simpl; [exact IH|].
  rewrite String.eqb_sym, E. exact IH.
Qed.

Lemma rec_get_kept {V} k k' (r : list (string * V)) :
  String.eqb k k' = false ->
  rec_get k (filter (fun e => negb (String.eqb (fst e) k')) r) = rec_get k r.
Proof.
  intro H. induction r as [|[k'' v] r IH]; simpl; [reflexivity|].
  destruct (String.eqb k'' k') eqn:E; simpl.
  - apply String.eqb_eq in E. subst k''. rewrite H. exact IH.
  - destruct (String.eqb k k''); [reflexivity|exact IH].
Qed.

Lemma rec_get_removeAll {V} k ks (r : list (string * V)) :
  rec_get k (removeAll ks r) = if existsb (String.eqb k) ks then None else rec_get k r.
Proof.
  unfold removeAll. revert r. induction ks as [|k0 ks IH]; intro r; simpl; [reflexivity|].
  rewrite IH. destruct (String.eqb k k0) eqn:E; simpl.
  - apply String.eqb_eq in E. subst k0. rewrite rec_get_removed.
    destruct (existsb _ _); reflexivity.
  - rewrite (rec_get_kept _ _ _ E). reflexivity.
Qed.

Lemma isEncryptedKey_cases k :
  Storage.isEncryptedKey k = true ->
  k = Storage.WALLETS \/ k = Storage.TRANSACTIONS \/ k = Storage.SNAPSHOTS \/
  k = Storage.PROVIDER_CONFIGS.
Proof.
  unfold Storage.isEncryptedKey. rewrite existsb_exists. intros [x [Hin Hx]].
  apply String.eqb_eq in Hx. subst x. unfold Storage.ENCRYPTED_KEYS in Hin.
  destruct Hin as [<-|[<-|[<-|[<-|[]]]]]; tauto.
Qed.

Lemma forEach_removeItem Val UnlockedVault ks s :
  Storage.forEach Val UnlockedVault (Storage.removeItem Val UnlockedVault) ks s =
  (Storage.Ok tt, Storage.mkStore Val UnlockedVault
                    (removeAll ks (Storage.localStorage Val UnlockedVault s))
                    (Storage.secureCache Val UnlockedVault s)
                    (Storage.vault Val UnlockedVault s)
                    (Storage.pendingWrites Val UnlockedVault s)).
Proof.
  revert s. induction ks as [|k ks IH]; intro s.
  - destruct s; reflexivity.
  - cbn [Storage.forEach]. unfold Storage.bind at 1. cbn [Storage.removeItem].
    rewrite IH. reflexivity.
Qed.

(** After [setSecureData] of an encrypted key with the vault unlocked, a
    read of that key returns the new data only when a non-empty value was
    already persisted under the key; otherwise it returns the default value
    until the asynchronous encrypted write has landed in [localStorage]. *)
Theorem setSecureData_encrypted_read_back Val UnlockedVault JSON_parse JSON_stringify
    key data defaultValue s vk :
  Storage.isEncryptedKey key = true ->
  Storage.vault Val UnlockedVault s = Some vk ->
  let w := Storage.setSecureData Val UnlockedVault JSON_stringify key data s in
  fst w = Storage.Ok tt /\
  Storage.getSecureData Val UnlockedVault JSON_parse key defaultValue (snd w) =
  if Storage.falsyRaw (Storage.getItem Val UnlockedVault key s) then Storage.Ok defaultValue
  else Storage.Ok data.
Proof.
  intros Hk Hv w. subst w. unfold Storage.setSecureData. rewrite Hk, Hv.
  split; [reflexivity|]. unfold Storage.getSecureData, Storage.getItem.
  cbn [snd Storage.localStorage Storage.vault Storage.secureCache].
  destruct (Storage.falsyRaw _); [reflexivity|].
  rewrite Hk, rec_get_rec_set_eq. reflexivity.
Qed.

Lemma setSecureData_encrypted_read_back_witness :
  let s := Storage.mkStore nat unit [] [] (Some tt) [] in
  let w := Storage.setSecureData nat unit (fun _ => EmptyString) Storage.WALLETS 5%nat s in
  fst w = Storage.Ok tt /\
  Storage.getSecureData nat unit (fun _ => None) Storage.WALLETS 0%nat (snd w) =
  if Storage.falsyRaw (Storage.getItem nat unit Storage.WALLETS s) then Storage.Ok 0%nat
  else Storage.Ok 5%nat.
Proof.
  exact (setSecureData_encrypted_read_back nat unit (fun _ => None) (fun _ => EmptyString)
           Storage.WALLETS 5%nat 0%nat (Storage.mkStore nat unit [] [] (Some tt) []) tt
           ltac:(reflexivity) ltac:(reflexivity)).
Defined.

(** For a key outside the encrypted set, [setSecureData] succeeds and
    writes [JSON.stringify(data)] to [localStorage] under the key; a later
    read returns the data, whenever the serialisation is non-empty and
    parses back to the data. *)
Theorem setSecureData_plain_round_trip Val UnlockedVault JSON_parse JSON_stringify
    key data defaultValue s :
  Storage.isEncryptedKey key = false ->
  String.eqb (JSON_stringify data) "" = false ->
  JSON_parse (JSON_stringify data) = Some data ->
  let w := Storage.setSecureData Val UnlockedVault JSON_stringify key data s in
  fst w = Storage.Ok tt /\
  Storage.getItem Val UnlockedVault key (snd w) = Some (JSON_stringify data) /\
  Storage.getSecureData Val UnlockedVault JSON_parse key defaultValue (snd w) = Storage.Ok data.
Proof.
  intros Hk Hne Hrt w. subst w. unfold Storage.setSecureData. rewrite Hk.
  unfold Storage.getSecureData, Storage.getItem, Storage.setItem.
  cbn [fst snd Storage.localStorage]. rewrite rec_get_rec_set_eq.
  split; [reflexivity|]. split; [reflexivity|]. simpl.
  rewrite Hne, Hk, Hrt. reflexivity.
Qed.

Lemma setSecureData_plain_round_trip_witness :
  let s := Storage.mkStore string unit [] [] None [] in
  let w := Storage.setSecureData string unit (fun v => v) Storage.SETTINGS "{}"%string s in
  fst w = Storage.Ok tt /\
  Storage.getItem string unit Storage.SETTINGS (snd w) = Some "{}"%string /\
  Storage.getSecureData string unit (fun r => Some r) Storage.SETTINGS EmptyString (snd w) =
  Storage.Ok "{}"%string.
Proof.
  exact (setSecureData_plain_round_trip string unit (fun r => Some r) (fun v => v)
           Storage.SETTINGS "{}"%string EmptyString (Storage.mkStore string unit [] [] None [])
           ltac:(reflexivity) ltac:(reflexivity) ltac:(reflexivity)).
Defined.

(** [importBackupData] of a version-1 backup with the vault locked throws
    [VaultLockedError] at its first write and changes nothing: no settings,
    onboarding flag or asset list is written either. *)
Theorem importBackupData_locked Val UnlockedVault JSON_stringify emptyArray DEFAULT_SETTINGS
    settingsSafeParse versionedSettings b s :
  Storage.versionIsOne Val b = true ->
  Storage.vault Val UnlockedVault s = None ->
  Storage.importBackupData Val UnlockedVault JSON_stringify emptyArray DEFAULT_SETTINGS
    settingsSafeParse versionedSettings (Some b) s =
  (Storage.Err Storage.VaultLockedError, s).
Proof.
  intros Hb Hv. unfold Storage.importBackupData. rewrite Hb. simpl.
  unfold Storage.bind at 1. unfold Storage.setSecureData at 1. simpl.
  rewrite Hv. reflexivity.
Qed.

Lemma importBackupData_locked_witness :
  Storage.importBackupData nat unit (fun _ => "[]"%string) 0%nat 0%nat (fun v => Some v) (fun v => v)
    (Some (Storage.mkBackup nat (Some 1) (Some 3%nat) None None None None true None None))
    (Storage.mkStore nat unit [] [] None []) =
  (Storage.Err Storage.VaultLockedError, Storage.mkStore nat unit [] [] None []).
Proof.
  apply importBackupData_locked; reflexivity.
Defined.

Lemma importBackupData_unlocked_store Val UnlockedVault JSON_stringify emptyArray
    DEFAULT_SETTINGS settingsSafeParse versionedSettings b s vk :
  Storage.versionIsOne Val b = true ->
  Storage.vault Val UnlockedVault s = Some vk ->
  let fin := match settingsSafeParse (Storage.nullish Val (Storage.bk_settings Val b) DEFAULT_SETTINGS) with
             | Some v => v | None => DEFAULT_SETTINGS end in
  let enc := [(Storage.WALLETS, Storage.nullish Val (Storage.bk_wallets Val b) emptyArray);
              (Storage.TRANSACTIONS, Storage.nullish Val (Storage.bk_transactions Val b) emptyArray);
              (Storage.SNAPSHOTS, Storage.nullish Val (Storage.bk_snapshots Val b) emptyArray);
              (Storage.PROVIDER_CONFIGS, Storage.nullish Val (Storage.bk_providerConfigs Val b) emptyArray)] in
  Storage.importBackupData Val UnlockedVault JSON_stringify emptyArray DEFAULT_SETTINGS
    settingsSafeParse versionedSettings (Some b) s =
  (Storage.Ok tt,
   Storage.mkStore Val UnlockedVault
     (rec_set Storage.SPAM_ASSETS (JSON_stringify (Storage.nullish Val (Storage.bk_spamAssets Val b) emptyArray))
       (rec_set Storage.HIDDEN_ASSETS (JSON_stringify (Storage.nullish Val (Storage.bk_hiddenAssets Val b) emptyArray))
         (rec_set Storage.ONBOARDING_COMPLETE (if Storage.bk_onboardingComplete Val b then "true"%string else "false"%string)
           (rec_set Storage.SETTINGS (JSON_stringify (versionedSettings fin))
              (Storage.localStorage Val UnlockedVault s)))))
     (fold_left (fun c e => rec_set (fst e) (snd e) c) enc (Storage.secureCache Val UnlockedVault s))
     (Some vk)
     (Storage.pendingWrites Val UnlockedVault s ++ enc)).
Proof.
  intros Hb Hv fin enc. destruct s as [ls sc v pw]. cbn in Hv. subst v.
  unfold Storage.importBackupData. rewrite Hb. cbn.
  rewrite <- !app_assoc. reflexivity.
Qed.

(** [importBackupData] of a version-1 backup with the vault unlocked
    succeeds; it writes the settings, the onboarding flag and both asset
    lists to [localStorage], leaves the persisted values of the four
    encrypted keys untouched, and queues one encryption per encrypted key in
    the order wallets, transactions, snapshots, provider configs. *)
Theorem importBackupData_unlocked Val UnlockedVault JSON_stringify emptyArray DEFAULT_SETTINGS
    settingsSafeParse versionedSettings b s vk :
  Storage.versionIsOne Val b = true ->
  Storage.vault Val UnlockedVault s = Some vk ->
  let s' := importedStore Val UnlockedVault JSON_stringify emptyArray DEFAULT_SETTINGS
              settingsSafeParse versionedSettings b s in
  fst (Storage.importBackupData Val UnlockedVault JSON_stringify emptyArray DEFAULT_SETTINGS
         settingsSafeParse versionedSettings (Some b) s) = Storage.Ok tt /\
  Storage.isOnboardingComplete Val UnlockedVault s' = Storage.bk_onboardingComplete Val b /\
  Storage.getItem Val UnlockedVault Storage.HIDDEN_ASSETS s' =
    Some (JSON_stringify (Storage.nullish Val (Storage.bk_hiddenAssets Val b) emptyArray)) /\
  Storage.getItem Val UnlockedVault Storage.SPAM_ASSETS s' =
    Some (JSON_stringify (Storage.nullish Val (Storage.bk_spamAssets Val b) emptyArray)) /\
  Storage.getItem Val UnlockedVault Storage.SETTINGS s' =
    Some (JSON_stringify (versionedSettings
      (match settingsSafeParse (Storage.nullish Val (Storage.bk_settings Val b) DEFAULT_SETTINGS) with
       | Some v => v | None => DEFAULT_SETTINGS end))) /\
  (forall k, Storage.isEncryptedKey k = true ->
     Storage.getItem Val UnlockedVault k s' = Storage.getItem Val UnlockedVault k s) /\
  Storage.pendingWrites Val UnlockedVault s' =
    Storage.pendingWrites Val UnlockedVault s ++
    [(Storage.WALLETS, Storage.nullish Val (Storage.bk_wallets Val b) emptyArray);
     (Storage.TRANSACTIONS, Storage.nullish Val (Storage.bk_transactions Val b) emptyArray);
     (Storage.SNAPSHOTS, Storage.nullish Val (Storage.bk_snapshots Val b) emptyArray);
     (Storage.PROVIDER_CONFIGS, Storage.nullish Val (Storage.bk_providerConfigs Val b) emptyArray)].
Proof.
  intros Hb Hv s'. unfold s', importedStore.
  rewrite (importBackupData_unlocked_store _ _ _ _ _ _ _ b s vk Hb Hv). cbn [fst snd].
  unfold Storage.isOnboardingComplete, Storage.getItem. cbn [Storage.localStorage Storage.pendingWrites].
  repeat split.
  - rewrite !rec_get_rec_set_neq by reflexivity. rewrite rec_get_rec_set_eq.
    destruct (Storage.bk_onboardingComplete Val b); reflexivity.
  - rewrite rec_get_rec_set_neq by reflexivity. apply rec_get_rec_set_eq.
  - apply rec_get_rec_set_eq.
  - rewrite !rec_get_rec_set_neq by reflexivity. apply rec_get_rec_set_eq.
  - intros k Hk. apply isEncryptedKey_cases in Hk.
    destruct Hk as [-> | [-> | [-> | ->]]]; rewrite !rec_get_rec_set_neq by reflexivity; reflexivity.
Qed.

Lemma importBackupData_unlocked_witness :
  let b := Storage.mkBackup nat (Some 1) (Some 3%nat) None None None None true None None in
  let s := Storage.mkStore nat unit [] [] (Some tt) [] in
  let s' := importedStore nat unit (fun _ => "[]"%string) 0%nat 0%nat (fun v => Some v) (fun v => v) b s in
  fst (Storage.importBackupData nat unit (fun _ => "[]"%string) 0%nat 0%nat (fun v => Some v)
         (fun v => v) (Some b) s) = Storage.Ok tt /\
  Storage.isOnboardingComplete nat unit s' = true /\
  Storage.getItem nat unit Storage.HIDDEN_ASSETS s' = Some "[]"%string /\
  Storage.getItem nat unit Storage.SPAM_ASSETS s' = Some "[]"%string /\
  Storage.getItem nat unit Storage.SETTINGS s' = Some "[]"%string /\
  (forall k, Storage.isEncryptedKey k = true ->
     Storage.getItem nat unit k s' = Storage.getItem nat unit k s) /\
  Storage.pendingWrites nat unit s' =
    [(Storage.WALLETS, 3%nat); (Storage.TRANSACTIONS, 0%nat);
     (Storage.SNAPSHOTS, 0%nat); (Storage.PROVIDER_CONFIGS, 0%nat)].
Proof.
  exact (importBackupData_unlocked nat unit (fun _ => "[]"%string) 0%nat 0%nat (fun v => Some v)
           (fun v => v) (Storage.mkBackup nat (Some 1) (Some 3%nat) None None None None true None None)
           (Storage.mkStore nat unit [] [] (Some tt) []) tt ltac:(vm_compute; reflexivity)
           ltac:(reflexivity)).
Defined.

(** Right after [importBackupData] of a version-1 backup with the vault
    unlocked, reading one of the four encrypted keys returns the backup's
    value only when that key already had a non-empty persisted value before
    the import; otherwise (e.g. on a fresh browser) it returns the default
    value passed to the read. *)
Theorem importBackupData_encrypted_reads Val UnlockedVault JSON_parse JSON_stringify emptyArray
    DEFAULT_SETTINGS settingsSafeParse versionedSettings b s vk d :
  Storage.versionIsOne Val b = true ->
  Storage.vault Val UnlockedVault s = Some vk ->
  let s' := importedStore Val UnlockedVault JSON_stringify emptyArray DEFAULT_SETTINGS
              settingsSafeParse versionedSettings b s in
  let read k := Storage.getSecureData Val UnlockedVault JSON_parse k d s' in
  let expect k v := if Storage.falsyRaw (Storage.getItem Val UnlockedVault k s)
                    then Storage.Ok d else Storage.Ok v in
  read Storage.WALLETS = expect Storage.WALLETS (Storage.nullish Val (Storage.bk_wallets Val b) emptyArray) /\
  read Storage.TRANSACTIONS =
    expect Storage.TRANSACTIONS (Storage.nullish Val (Storage.bk_transactions Val b) emptyArray) /\
  read Storage.SNAPSHOTS = expect Storage.SNAPSHOTS (Storage.nullish Val (Storage.bk_snapshots Val b) emptyArray) /\
  read Storage.PROVIDER_CONFIGS =
    expect Storage.PROVIDER_CONFIGS (Storage.nullish Val (Storage.bk_providerConfigs Val b) emptyArray).
Proof.
  intros Hb Hv s' read expect. unfold read, expect, s', importedStore.
  rewrite (importBackupData_unlocked_store _ _ _ _ _ _ _ b s vk Hb Hv). cbn [snd fold_left fst].
  unfold Storage.getSecureData, Storage.getItem. cbn [Storage.localStorage Storage.vault Storage.secureCache].
  repeat split;
    (rewrite !rec_get_rec_set_neq by reflexivity;
     destruct (Storage.falsyRaw _); [reflexivity|];
     cbn [Storage.isEncryptedKey Storage.ENCRYPTED_KEYS existsb];
     rewrite ?String.eqb_refl; simpl;
     rewrite ?rec_get_rec_set_eq; rewrite ?rec_get_rec_set_neq by reflexivity;
     rewrite ?rec_get_rec_set_eq; reflexivity).
Qed.

Lemma importBackupData_encrypted_reads_witness :
  let b := Storage.mkBackup nat (Some 1) (Some 3%nat) (Some 4%nat) None None None false None None in
  let s := Storage.mkStore nat unit [(Storage.WALLETS, "ciphertext"%string)] [] (Some tt) [] in
  let s' := importedStore nat unit (fun _ => "[]"%string) 0%nat 0%nat (fun v => Some v) (fun v => v) b s in
  let read k := Storage.getSecureData nat unit (fun _ => None) k 0%nat s' in
  let expect k v := if Storage.falsyRaw (Storage.getItem nat unit k s)
                    then Storage.Ok 0%nat else Storage.Ok v in
  read Storage.WALLETS = expect Storage.WALLETS 3%nat /\
  read Storage.TRANSACTIONS = expect Storage.TRANSACTIONS 4%nat /\
  read Storage.SNAPSHOTS = expect Storage.SNAPSHOTS 0%nat /\
  read Storage.PROVIDER_CONFIGS = expect Storage.PROVIDER_CONFIGS 0%nat.
Proof.
  exact (importBackupData_encrypted_reads nat unit (fun _ => None) (fun _ => "[]"%string) 0%nat 0%nat
           (fun v => Some v) (fun v => v)
           (Storage.mkBackup nat (Some 1) (Some 3%nat) (Some 4%nat) None None None false None None)
           (Storage.mkStore nat unit [(Storage.WALLETS, "ciphertext"%string)] [] (Some tt) []) tt 0%nat
           ltac:(vm_compute; reflexivity) ltac:(reflexivity)).
Defined.

(** [clearAllData] removes every [STORAGE_KEYS] value and the two
    encryption keys from [localStorage] and nothing else; it leaves the
    decrypted cache, the vault and the pending encryptions as they were.
    In the store it returns, every storage key reads as its default value,
    whether the vault is locked or not and whatever the cache still holds;
    the encryptions still pending are kept and may write encrypted keys
    back when they complete. *)
Theorem clearAllData_effect Val UnlockedVault JSON_parse s :
  let w := Storage.clearAllData Val UnlockedVault s in
  fst w = Storage.Ok tt /\
  (forall k d, In k Storage.STORAGE_KEY_VALUES ->
     Storage.getSecureData Val UnlockedVault JSON_parse k d (snd w) = Storage.Ok d) /\
  Storage.getItem Val UnlockedVault "crypta_encryption_enabled" (snd w) = None /\
  Storage.getItem Val UnlockedVault "crypta_passphrase_hash" (snd w) = None /\
  (forall k, ~ In k (Storage.STORAGE_KEY_VALUES ++
                     ["crypta_encryption_enabled"%string; "crypta_passphrase_hash"%string])%list ->
     Storage.getItem Val UnlockedVault k (snd w) = Storage.getItem Val UnlockedVault k s) /\
  Storage.secureCache Val UnlockedVault (snd w) = Storage.secureCache Val UnlockedVault s /\
  Storage.vault Val UnlockedVault (snd w) = Storage.vault Val UnlockedVault s /\
  Storage.pendingWrites Val UnlockedVault (snd w) = Storage.pendingWrites Val UnlockedVault s.
Proof.
  intro w.
  assert (Hw : w = (Storage.Ok tt, Storage.mkStore Val UnlockedVault
                      (removeAll (Storage.STORAGE_KEY_VALUES ++
                                  ["crypta_encryption_enabled"%string; "crypta_passphrase_hash"%string])%list
                         (Storage.localStorage Val UnlockedVault s))
                      (Storage.secureCache Val UnlockedVault s)
                      (Storage.vault Val UnlockedVault s)
                      (Storage.pendingWrites Val UnlockedVault s))).
  { subst w. unfold Storage.clearAllData, Storage.bind at 1.
    rewrite forEach_removeItem. unfold removeAll. rewrite fold_left_app. reflexivity. }
  rewrite Hw. cbn [fst snd Storage.secureCache Storage.vault Storage.pendingWrites].
  unfold Storage.getItem. cbn [Storage.localStorage].
  repeat split.
  - intros k d Hk. unfold Storage.getSecureData, Storage.getItem.
    cbn [Storage.localStorage]. rewrite rec_get_removeAll.
    replace (existsb (String.eqb k) _) with true; [reflexivity|].
    symmetry. apply existsb_exists. exists k. split; [apply in_or_app; left; exact Hk|].
    apply String.eqb_refl.
  - rewrite rec_get_removeAll. reflexivity.
  - rewrite rec_get_removeAll. reflexivity.
  - intros k Hk. rewrite rec_get_removeAll.
    destruct (existsb (String.eqb k) _) eqn:E; [|reflexivity].
    apply existsb_exists in E. destruct E as [x [Hx Ex]].
    apply String.eqb_eq in Ex. subst x. contradiction.
Qed.

Lemma decList_encStr x t :
  decList (encStr x ++ t) = option_map (cons x) (decList t).
Proof.
  induction x as [|c x IH]; simpl.
  - destruct (decList t); reflexivity.
  - rewrite IH. destruct (decList t); reflexivity.
Qed.

Lemma parseStringsEx_stringify l : parseStringsEx (stringifyStringsEx l) = Some l.
Proof.
  unfold parseStringsEx, stringifyStringsEx. simpl.
  induction l as [|x l IH]; [reflexivity|]. simpl. rewrite decList_encStr, IH. reflexivity.
Qed.

Lemma stringifyStringsEx_nonempty l : String.eqb (stringifyStringsEx l) "" = false.
Proof. reflexivity. Qed.

Lemma find_index_none_existsb {A} (p : A -> bool) l :
  find_index p l = None <-> existsb p l = false.
Proof.
  induction l as [|x l IH]; simpl; [tauto|].
  destruct (p x); simpl; [split; discriminate|].
  destruct (find_index p l); simpl; rewrite <- IH; split; congruence.
Qed.

Lemma count_occ_existsb n l :
  existsb (fun x => String.eqb x n) l = Nat.ltb 0 (count_occ string_dec l n).
Proof.
  induction l as [|x l IH]; simpl; [reflexivity|].
  destruct (String.eqb x n) eqn:E; destruct (string_dec x n) as [e|e].
  - reflexivity.
  - apply String.eqb_eq in E. contradiction.
  - subst. rewrite String.eqb_refl in E. discriminate.
  - exact IH.
Qed.

Lemma count_removeAt_first n l i :
  find_index (fun x => String.eqb x n) l = Some i ->
  S (count_occ string_dec (Storage.removeAt i l) n) = count_occ string_dec l n.
Proof.
  revert i. induction l as [|x l IH]; intros i Hi; simpl in Hi; [discriminate|].
  destruct (String.eqb x n) eqn:E.
  - injection Hi as <-. apply String.eqb_eq in E. subst x. simpl.
    destruct (string_dec n n); [reflexivity|contradiction].
  - destruct (find_index _ l) as [j|] eqn:F; simpl in Hi; [|discriminate].
    injection Hi as <-. simpl. rewrite <- (IH j eq_refl).
    destruct (string_dec x n) as [e|e]; [|reflexivity].
    subst. rewrite String.eqb_refl in E. discriminate.
Qed.

Lemma find_index_appended n l :
  existsb (fun x => String.eqb x n) l = false ->
  find_index (fun x => String.eqb x n) (l ++ [n]) = Some (length l).
Proof.
  induction l as [|x l IH]; simpl; intro H.
  - rewrite String.eqb_refl. reflexivity.
  - destruct (String.eqb x n); [discriminate|]. rewrite (IH H). reflexivity.
Qed.

Lemma removeAt_appended {A} l (y : A) : Storage.removeAt (length l) (l ++ [y]) = l.
Proof. induction l as [|x l IH]; simpl; [reflexivity|]. rewrite IH. reflexivity. Qed.

Section Toggle.

Variable Val UnlockedVault : Type.
Variable parseStrings : string -> option (list string).
Variable stringifyStrings : list string -> string.
Hypothesis parse_stringify : forall l, parseStrings (stringifyStrings l) = Some l.
Hypothesis stringify_nonempty : forall l, String.eqb (stringifyStrings l) "" = false.

Lemma getAssetList_written key l (st : Storage.Store Val UnlockedVault) :
  rec_get key (Storage.localStorage Val UnlockedVault st) = Some (stringifyStrings l) ->
  Storage.getAssetList Val UnlockedVault parseStrings key st = l.
Proof.
  intro H. unfold Storage.getAssetList, Storage.getItem. rewrite H.
  rewrite stringify_nonempty, parse_stringify. reflexivity.
Qed.

(** The outcome of [toggleAsset] once the list it reads is known. *)
Lemma toggleAsset_result key symbol (s : Storage.Store Val UnlockedVault) :
  let L := Storage.getAssetList Val UnlockedVault parseStrings key s in
  let n := toUpperCase symbol in
  let w := Storage.toggleAsset Val UnlockedVault parseStrings stringifyStrings key symbol s in
  match find_index (fun x => String.eqb x n) L with
  | None => fst w = Storage.Ok true /\
            Storage.getAssetList Val UnlockedVault parseStrings key (snd w) = L ++ [n]
  | Some i => fst w = Storage.Ok false /\
              Storage.getAssetList Val UnlockedVault parseStrings key (snd w) = Storage.removeAt i L
  end.
Proof.
  intros L n w. unfold w, Storage.toggleAsset. fold L n.
  destruct (find_index _ L) eqn:F; cbn [Storage.bind Storage.setItem Storage.ret fst snd];
    (split; [reflexivity|]); apply getAssetList_written; cbn [Storage.localStorage];
    apply rec_get_rec_set_eq.
Qed.

End Toggle.

(** With a JSON serialisation that parses back, [toggleHiddenAsset] and
    [toggleSpamAsset] (at their key) return [true] exactly when the
    upper-cased symbol was not listed, and afterwards [isAssetHidden] /
    [isAssetSpam] gives that returned value, provided the stored list holds
    the symbol at most once. *)
Theorem toggleAsset_flips Val UnlockedVault parseStrings stringifyStrings key symbol s :
  (forall l, parseStrings (stringifyStrings l) = Some l) ->
  (forall l, String.eqb (stringifyStrings l) "" = false) ->
  (count_occ string_dec (Storage.getAssetList Val UnlockedVault parseStrings key s)
     (toUpperCase symbol) <= 1)%nat ->
  let w := Storage.toggleAsset Val UnlockedVault parseStrings stringifyStrings key symbol s in
  fst w = Storage.Ok (negb (Storage.isAssetListed Val UnlockedVault parseStrings key symbol s)) /\
  Storage.isAssetListed Val UnlockedVault parseStrings key symbol (snd w) =
    negb (Storage.isAssetListed Val UnlockedVault parseStrings key symbol s).
Proof.
  intros RT NE Hc w.
  pose proof (toggleAsset_result Val UnlockedVault parseStrings stringifyStrings RT NE key symbol s) as T.
  cbn zeta in T. fold w in T. unfold Storage.isAssetListed.
  set (L := Storage.getAssetList Val UnlockedVault parseStrings key s) in *.
  set (n := toUpperCase symbol) in *.
  destruct (find_index (fun x => String.eqb x n) L) as [i|] eqn:F; destruct T as [T1 T2];
    rewrite T2, T1.
  - assert (Hi := count_removeAt_first n L i F).
    rewrite !count_occ_existsb. rewrite <- Hi.
    destruct (count_occ string_dec (Storage.removeAt i L) n) eqn:C; [split; reflexivity|lia].
  - apply find_index_none_existsb in F. rewrite F.
    rewrite count_occ_existsb, count_occ_app. simpl.
    destruct (string_dec n n); [|contradiction]. split; [reflexivity|].
    apply Nat.ltb_lt. lia.
Qed.

Lemma find_index_split n L i :
  find_index (fun x => String.eqb x n) L = Some i ->
  exists a b, L = a ++ n :: b /\ ~ In n a /\ Storage.removeAt i L = a ++ b.
Proof.
  revert i. induction L as [|x L IH]; intros i Hi; simpl in Hi; [discriminate|].
  destruct (String.eqb x n) eqn:E.
  - injection Hi as <-. apply String.eqb_eq in E. subst x.
    exists [], L. repeat split; auto.
  - destruct (find_index _ L) as [j|] eqn:F; simpl in Hi; [|discriminate].
    injection Hi as <-. destruct (IH j eq_refl) as [a [b [H1 [H2 H3]]]].
    exists (x :: a), b. split; [rewrite H1; reflexivity|]. split.
    + intros [Hx|Hx]; [subst x; rewrite String.eqb_refl in E; discriminate|tauto].
    + cbn [Storage.removeAt]. rewrite H3. reflexivity.
Qed.

(** When the stored list holds the upper-cased symbol twice or more (e.g.
    after importing such a backup), [toggleHiddenAsset] / [toggleSpamAsset]
    report [false] ("now visible") and remove only the first copy: the list
    stored afterwards is the old one without its first occurrence, so the
    symbol stays listed. *)
Theorem toggleAsset_duplicate Val UnlockedVault parseStrings stringifyStrings key symbol s :
  (forall l, parseStrings (stringifyStrings l) = Some l) ->
  (forall l, String.eqb (stringifyStrings l) "" = false) ->
  (2 <= count_occ string_dec (Storage.getAssetList Val UnlockedVault parseStrings key s)
          (toUpperCase symbol))%nat ->
  let w := Storage.toggleAsset Val UnlockedVault parseStrings stringifyStrings key symbol s in
  fst w = Storage.Ok false /\
  (exists a b, Storage.getAssetList Val UnlockedVault parseStrings key s = a ++ toUpperCase symbol :: b /\
               ~ In (toUpperCase symbol) a /\
               Storage.getAssetList Val UnlockedVault parseStrings key (snd w) = a ++ b) /\
  Storage.isAssetListed Val UnlockedVault parseStrings key symbol (snd w) = true.
Proof.
  intros RT NE Hc w.
  pose proof (toggleAsset_result Val UnlockedVault parseStrings stringifyStrings RT NE key symbol s) as T.
  cbn zeta in T. fold w in T. unfold Storage.isAssetListed.
  set (L := Storage.getAssetList Val UnlockedVault parseStrings key s) in *.
  set (n := toUpperCase symbol) in *.
  destruct (find_index (fun x => String.eqb x n) L) as [i|] eqn:F; destruct T as [T1 T2].
  - rewrite T2, T1. split; [reflexivity|]. split.
    + destruct (find_index_split n L i F) as [a [b [H1 [H2 H3]]]].
      exists a, b. rewrite <- H3. repeat split; assumption.
    + assert (Hi := count_removeAt_first n L i F).
      rewrite count_occ_existsb. apply Nat.ltb_lt. lia.
  - apply find_index_none_existsb in F. rewrite count_occ_existsb in F.
    apply Nat.ltb_ge in F. lia.
Qed.

(** Toggling a symbol that is not listed twice in a row: the first toggle
    returns [true] and stores the old list with the upper-cased symbol
    appended, the second returns [false] and stores the old list again. *)
Theorem toggleAsset_twice Val UnlockedVault parseStrings stringifyStrings key symbol s :
  (forall l, parseStrings (stringifyStrings l) = Some l) ->
  (forall l, String.eqb (stringifyStrings l) "" = false) ->
  Storage.isAssetListed Val UnlockedVault parseStrings key symbol s = false ->
  let t := Storage.toggleAsset Val UnlockedVault parseStrings stringifyStrings key symbol in
  let L := Storage.getAssetList Val UnlockedVault parseStrings key s in
  fst (t s) = Storage.Ok true /\
  Storage.getAssetList Val UnlockedVault parseStrings key (snd (t s)) = L ++ [toUpperCase symbol] /\
  fst (t (snd (t s))) = Storage.Ok false /\
  Storage.getAssetList Val UnlockedVault parseStrings key (snd (t (snd (t s)))) = L.
Proof.
  intros RT NE Hn t L0. unfold t, L0.
  pose proof (toggleAsset_result Val UnlockedVault parseStrings stringifyStrings RT NE key symbol s) as T.
  cbn zeta in T. unfold Storage.isAssetListed in Hn.
  set (L := Storage.getAssetList Val UnlockedVault parseStrings key s) in *.
  set (n := toUpperCase symbol) in *.
  assert (F : find_index (fun x => String.eqb x n) L = None) by (apply find_index_none_existsb; exact Hn).
  rewrite F in T. destruct T as [T1 T2].
  pose proof (toggleAsset_result Val UnlockedVault parseStrings stringifyStrings RT NE key symbol
                (snd (Storage.toggleAsset Val UnlockedVault parseStrings stringifyStrings key symbol s)))
    as T'.
  cbn zeta in T'. fold n in T'. rewrite T2 in T'.
  rewrite (find_index_appended n L Hn) in T'. destruct T' as [T3 T4].
  repeat split; try assumption. rewrite T4. apply removeAt_appended.
Qed.

Lemma toggleAsset_flips_witness :
  let s := Storage.mkStore nat unit [] [] None [] in
  let w := Storage.toggleHiddenAsset nat unit parseStringsEx stringifyStringsEx "eth" s in
  fst w = Storage.Ok (negb (Storage.isAssetHidden nat unit parseStringsEx "eth" s)) /\
  Storage.isAssetHidden nat unit parseStringsEx "eth" (snd w) =
    negb (Storage.isAssetHidden nat unit parseStringsEx "eth" s).
Proof.
  exact (toggleAsset_flips nat unit parseStringsEx stringifyStringsEx Storage.HIDDEN_ASSETS "eth"
           (Storage.mkStore nat unit [] [] None [])
           parseStringsEx_stringify stringifyStringsEx_nonempty ltac:(vm_compute; lia)).
Defined.

Lemma toggleAsset_duplicate_witness :
  let s := Storage.mkStore nat unit
             [(Storage.HIDDEN_ASSETS, stringifyStringsEx ["ETH"; "ETH"]%string)] [] None [] in
  let w := Storage.toggleHiddenAsset nat unit parseStringsEx stringifyStringsEx "eth" s in
  fst w = Storage.Ok false /\
  (exists a b, Storage.getHiddenAssets nat unit parseStringsEx s = a ++ toUpperCase "eth" :: b /\
               ~ In (toUpperCase "eth") a /\
               Storage.getHiddenAssets nat unit parseStringsEx (snd w) = a ++ b) /\
  Storage.isAssetHidden nat unit parseStringsEx "eth" (snd w) = true.
Proof.
  exact (toggleAsset_duplicate nat unit parseStringsEx stringifyStringsEx Storage.HIDDEN_ASSETS "eth"
           (Storage.mkStore nat unit
              [(Storage.HIDDEN_ASSETS, stringifyStringsEx ["ETH"; "ETH"]%string)] [] None [])
           parseStringsEx_stringify stringifyStringsEx_nonempty ltac:(vm_compute; lia)).
Defined.

Lemma toggleAsset_twice_witness :
  let s := Storage.mkStore nat unit
             [(Storage.SPAM_ASSETS, stringifyStringsEx ["BTC"]%string)] [] None [] in
  let t := Storage.toggleSpamAsset nat unit parseStringsEx stringifyStringsEx "eth" in
  let L := Storage.getSpamAssets nat unit parseStringsEx s in
  fst (t s) = Storage.Ok true /\
  Storage.getSpamAssets nat unit parseStringsEx (snd (t s)) = L ++ [toUpperCase "eth"] /\
  fst (t (snd (t s))) = Storage.Ok false /\
  Storage.getSpamAssets nat unit parseStringsEx (snd (t (snd (t s)))) = L.
Proof.
  exact (toggleAsset_twice nat unit parseStringsEx stringifyStringsEx Storage.SPAM_ASSETS "eth"
           (Storage.mkStore nat unit
              [(Storage.SPAM_ASSETS, stringifyStringsEx ["BTC"]%string)] [] None [])
           parseStringsEx_stringify stringifyStringsEx_nonempty ltac:(vm_compute; reflexivity)).
Defined.
